(** * Zap (proj3): the Huffman codec engine

    A shallow embedding of [HuffmanCoder.cpp] and [phaseOne.cpp]:
    tree construction, code generation, text encoding and decoding, and
    the [L]/[I] serialization of the tree.

    Conventions of the embedding

    - [char] is [ascii] (one byte, all 256 values); a [std::string] is a
      [list ascii], so that a string may hold the null byte.
    - A [HuffmanTreeNode*] is a value of [HuffmanTreeNode]: [nullptr] or
      a node with its two child pointers.  Nodes are only ever created by
      [new] and never shared, so a pointer is determined by the subtree
      it points to, except in [decodeText], where the test [curr != root]
      compares addresses; there the cursor carries a flag that records
      whether it is the pointer [root] itself.
    - [int] frequencies are [Z]; signed overflow, which C++ leaves
      undefined, is the outcome [Err Undefined], as are dereferencing
      [nullptr] and [top()] on an empty queue.
    - String positions ([int index], [int size], [int length]) are [nat]:
      the strings of the model are shorter than 2^31 characters.
    - [std::unordered_map] is [gmap]; its iteration order and the order in
      which [std::priority_queue] hands out nodes are left to the
      implementation ([Platform]).
    - Loops whose bound is not structural take a fuel argument; running
      out of it is [Err OutOfFuel], shown never to be returned. *)

From Stdlib Require Import Ascii String ZArith DecimalString.
From stdpp Require Import base option list gmap strings.

Local Open Scope char_scope.
Local Open Scope list_scope.

(** ** Outcomes *)

Inductive exn : Type :=
| Undefined          (* no behaviour defined by the language *)
| TreeIsEmpty        (* runtime_error("Huffman tree is empty.") *)
| EncodingMismatch   (* runtime_error("Encoding did not match Huffman tree.") *)
| OutOfRange         (* std::out_of_range thrown by unordered_map::at *)
| OutOfFuel.         (* loop bound of the model exhausted *)

Inductive result (A : Type) : Type :=
| Ok (a : A)
| Err (e : exn).
Arguments Ok {A} a.
Arguments Err {A} e.

#[global] Instance result_ret : MRet result := λ A a, Ok a.
#[global] Instance result_bind : MBind result := λ A B k c,
  match c with
  | Ok a => k a
  | Err e => Err e
  end.

(** ** [int] *)

Definition INT_MAX : Z := 2147483647.
Definition INT_MIN : Z := -2147483648.

Definition int_add (a b : Z) : result Z :=
  let s := (a + b)%Z in
  if decide (INT_MIN ≤ s ≤ INT_MAX)%Z then Ok s else Err Undefined.

(** ** HuffmanTreeNode *)

(** Modelled from the spec: [HuffmanTreeNode.h] is not among the sources.
    A node holds a symbol, a frequency and two child pointers; it is a
    leaf iff it has zero children. *)
Inductive HuffmanTreeNode : Type :=
| nullptr
| Node (val : ascii) (freq : Z) (left right : HuffmanTreeNode).

Definition isLeaf (n : HuffmanTreeNode) : bool :=
  match n with
  | Node _ _ nullptr nullptr => true
  | _ => false
  end.

Definition get_val (n : HuffmanTreeNode) : ascii :=
  match n with Node v _ _ _ => v | nullptr => "000" end.

Definition get_freq (n : HuffmanTreeNode) : Z :=
  match n with Node _ f _ _ => f | nullptr => 0%Z end.

Definition get_left (n : HuffmanTreeNode) : HuffmanTreeNode :=
  match n with Node _ _ l _ => l | nullptr => nullptr end.

Definition get_right (n : HuffmanTreeNode) : HuffmanTreeNode :=
  match n with Node _ _ _ r => r | nullptr => nullptr end.

Definition is_null (n : HuffmanTreeNode) : bool :=
  match n with nullptr => true | _ => false end.

(** [new HuffmanTreeNode(c, f)] *)
Definition new_leaf (c : ascii) (f : Z) : HuffmanTreeNode := Node c f nullptr nullptr.

(** [s[i]] on a [const std::string&]: defined for [i <= s.size()], where
    position [s.size()] reads as the null character. *)
Definition char_at (s : list ascii) (i : nat) : ascii := nth i s "000".

(** ** serializeHuffmanTree (HuffmanCoder.cpp) *)

Fixpoint serializeHuffmanTree (root : HuffmanTreeNode) : list ascii :=
  match root with
  | nullptr => []
  | Node val _ l r =>
      if isLeaf root then "L" :: [val]
      else "I" :: serializeHuffmanTree l ++ serializeHuffmanTree r
  end.

(** ** serialize_tree (phaseOne.cpp) *)

Fixpoint serialize_tree (root : HuffmanTreeNode) : list ascii :=
  match root with
  | nullptr => []
  | Node val _ l r =>
      if isLeaf root then ["L"] ++ [val]
      else ["I"] ++ serialize_tree l ++ serialize_tree r
  end.

(** ** deserializeHuffmanTree (HuffmanCoder.cpp)

    The helper threads [index] (an [int&] in the source) through its
    calls and returns it next to the node. *)

Fixpoint deserializeHuffmanTreeHelper (fuel : nat) (serialized_tree : list ascii)
    (index : nat) : result (HuffmanTreeNode * nat) :=
  match fuel with
  | O => Err OutOfFuel
  | S fuel =>
      let size := length serialized_tree in
      if decide (size ≤ index) then Ok (nullptr, index)
      else
        let type := char_at serialized_tree index in
        let index := S index in
        if decide (type = "L") then
          let val := char_at serialized_tree index in
          let index := S index in
          Ok (Node val 0 nullptr nullptr, index)
        else
          '(l, index) ← deserializeHuffmanTreeHelper fuel serialized_tree index;
          '(r, index) ← deserializeHuffmanTreeHelper fuel serialized_tree index;
          Ok (Node "000" 0 l r, index)
  end.

Definition deserializeHuffmanTree (serialized_tree : list ascii)
    : result HuffmanTreeNode :=
  match serialized_tree with
  | [] => Ok nullptr
  | _ =>
      '(root, _) ← deserializeHuffmanTreeHelper
                      (S (length serialized_tree)) serialized_tree 0;
      Ok root
  end.

(** ** deserialize_tree (phaseOne.cpp) *)

Fixpoint deserialize_tree_pos (fuel : nat) (serial_tree : list ascii) (pos : nat)
    : result (HuffmanTreeNode * nat) :=
  match fuel with
  | O => Err OutOfFuel
  | S fuel =>
      if decide (length serial_tree ≤ pos) then Ok (nullptr, pos)
      else
        let type := char_at serial_tree pos in
        let pos := S pos in
        if decide (type = "L") then
          let val := char_at serial_tree pos in
          let pos := S pos in
          Ok (Node val 1 nullptr nullptr, pos)
        else
          '(l, pos) ← deserialize_tree_pos fuel serial_tree pos;
          '(r, pos) ← deserialize_tree_pos fuel serial_tree pos;
          Ok (Node "000" 1 l r, pos)
  end.

Definition deserialize_tree (serial_tree : list ascii) : result HuffmanTreeNode :=
  '(root, _) ← deserialize_tree_pos (S (length serial_tree)) serial_tree 0;
  Ok root.

(** ** generateCharCodes

    [char_codes] is passed by reference in the source; here the updated
    table is returned.  The default argument [code = ""] is [[]]. *)

Fixpoint generateCharCodes (root : HuffmanTreeNode)
    (char_codes : gmap ascii (list ascii)) (code : list ascii)
    : gmap ascii (list ascii) :=
  match root with
  | nullptr => char_codes
  | Node val _ l r =>
      if isLeaf root then <[val := code]> char_codes
      else
        let char_codes := generateCharCodes l char_codes (code ++ ["0"]) in
        generateCharCodes r char_codes (code ++ ["1"])
  end.

(** ** encodeText *)

Fixpoint encodeText_loop (input_text : list ascii)
    (char_codes : gmap ascii (list ascii)) (encoded_text : list ascii)
    : result (list ascii) :=
  match input_text with
  | [] => Ok encoded_text
  | c :: input_text =>
      match char_codes !! c with            (* char_codes.at(c) *)
      | Some code => encodeText_loop input_text char_codes (encoded_text ++ code)
      | None => Err OutOfRange
      end
  end.

Definition encodeText (input_text : list ascii)
    (char_codes : gmap ascii (list ascii)) : result (list ascii) :=
  if decide (size char_codes = 1) then
    Ok (replicate (length input_text) "0")
  else
    encodeText_loop input_text char_codes [].

(** ** decodeText

    [curr_is_root] holds exactly when the pointer [curr] equals the
    pointer [root]: at the start, after a reset, and for as long as no
    child pointer has been followed since. *)

Fixpoint decodeText_loop (root : HuffmanTreeNode) (encoded_text : list ascii)
    (decoded_text : list ascii) (curr : HuffmanTreeNode) (curr_is_root : bool)
    : result (list ascii) :=
  match encoded_text with
  | [] =>
      if curr_is_root then Ok decoded_text else Err EncodingMismatch
  | bit :: encoded_text =>
      let '(curr, curr_is_root) :=
        if decide (bit = "0") then (get_left curr, false)
        else if decide (bit = "1") then (get_right curr, false)
        else (curr, curr_is_root) in
      if is_null curr then Err EncodingMismatch
      else if isLeaf curr then
        decodeText_loop root encoded_text (decoded_text ++ [get_val curr]) root true
      else
        decodeText_loop root encoded_text decoded_text curr curr_is_root
  end.

Definition decodeText (encoded_text : list ascii) (root : HuffmanTreeNode)
    : result (list ascii) :=
  if is_null root then Err TreeIsEmpty
  else decodeText_loop root encoded_text [] root true.

(** ** decoder

    The file read by [BinaryIO::readFile] is the pair
    [(serialized_tree, encoded_text)]; the text written to the output
    file is the value returned. *)

Fixpoint allZeros_loop (encoded_text : list ascii) (allZeros : bool) : bool :=
  match encoded_text with
  | [] => allZeros
  | c :: encoded_text =>
      if allZeros then
        allZeros_loop encoded_text (if decide (c ≠ "0") then false else allZeros)
      else allZeros
  end.

(** Lines 99-115 of [decoder]: the choice between the single-leaf case
    and [decodeText]. *)
Definition decoder_text (root : HuffmanTreeNode) (encoded_text : list ascii)
    : result (list ascii) :=
  if is_null root then Err Undefined         (* root->isLeaf() on nullptr *)
  else if isLeaf root then
    if allZeros_loop encoded_text true then
      Ok (replicate (length encoded_text) (get_val root))
    else decodeText encoded_text root
  else decodeText encoded_text root.

Definition decoder (serialized_tree encoded_text : list ascii)
    : result (list ascii) :=
  root ← deserializeHuffmanTree serialized_tree;
  decoder_text root encoded_text.

(** ** countCharFrequencies, on the contents of the input file *)

Fixpoint countCharFrequencies_loop (text : list ascii)
    (char_frequencies : gmap ascii Z) : result (gmap ascii Z) :=
  match text with
  | [] => Ok char_frequencies
  | c :: text =>
      n ← int_add (default 0%Z (char_frequencies !! c)) 1;   (* char_frequencies[c]++ *)
      countCharFrequencies_loop text (<[c := n]> char_frequencies)
  end.

Definition countCharFrequencies (text : list ascii) : result (gmap ascii Z) :=
  countCharFrequencies_loop text ∅.

(** ** The standard containers

    What the C++ library fixes about [std::unordered_map] iteration and
    [std::priority_queue], and no more: iteration visits every entry once,
    in some order; the queue holds a bag of node pointers, [top] hands out
    one of them, chosen by [NodeComparator] (also in the missing
    [HuffmanTreeNode.h]) and the heap layout, [pop] removes it. *)

Class Platform : Type := {
  iteration : gmap ascii Z → list (ascii * Z);
  iteration_perm : ∀ m, iteration m ≡ₚ map_to_list m;
  priority_queue : Type;
  pq_new : priority_queue;
  pq_push : HuffmanTreeNode → priority_queue → priority_queue;
  pq_top : priority_queue → option HuffmanTreeNode;
  pq_pop : priority_queue → priority_queue;
  pq_size : priority_queue → nat;
  pq_contents : priority_queue → list HuffmanTreeNode;
  pq_contents_new : pq_contents pq_new = [];
  pq_contents_push : ∀ x q, pq_contents (pq_push x q) ≡ₚ x :: pq_contents q;
  pq_size_contents : ∀ q, pq_size q = length (pq_contents q);
  pq_top_empty : ∀ q, pq_contents q = [] → pq_top q = None;
  pq_top_pop : ∀ q, pq_contents q ≠ [] →
    ∃ x, pq_top q = Some x ∧ pq_contents q ≡ₚ x :: pq_contents (pq_pop q)
}.

(** [pq.top()], undefined on an empty queue *)
Definition top `{Platform} (pq : priority_queue) : result HuffmanTreeNode :=
  match pq_top pq with
  | Some n => Ok n
  | None => Err Undefined
  end.

(** ** buildHuffmanTree *)

Fixpoint push_leaves `{Platform} (entries : list (ascii * Z)) (pq : priority_queue)
    : priority_queue :=
  match entries with
  | [] => pq
  | entry :: entries => push_leaves entries (pq_push (new_leaf entry.1 entry.2) pq)
  end.

Fixpoint merge_loop `{Platform} (fuel : nat) (pq : priority_queue)
    : result priority_queue :=
  if decide (1 < pq_size pq) then
    match fuel with
    | O => Err OutOfFuel
    | S fuel =>
        l ← top pq;
        let pq := pq_pop pq in
        r ← top pq;
        let pq := pq_pop pq in
        combined_freq ← int_add (get_freq l) (get_freq r);
        let parent := Node "000" combined_freq l r in
        merge_loop fuel (pq_push parent pq)
    end
  else Ok pq.

Definition buildHuffmanTree `{Platform} (char_frequencies : gmap ascii Z)
    : result HuffmanTreeNode :=
  let pq := push_leaves (iteration char_frequencies) pq_new in
  pq ← merge_loop (pq_size pq) pq;
  top pq.

(** ** encoder

    [None] is the outcome "is empty and cannot be compressed": nothing is
    built and nothing is written.  Otherwise the pair handed to
    [BinaryIO::writeFile] is returned.  [readFileContents] and
    [countCharFrequencies] both read the input file; [input_text] is
    what each of them reads. *)

Definition encoder `{Platform} (input_text : list ascii)
    : result (option (list ascii * list ascii)) :=
  match input_text with
  | [] => Ok None
  | _ =>
      char_frequencies ← countCharFrequencies input_text;
      root ← buildHuffmanTree char_frequencies;
      let char_codes := generateCharCodes root ∅ [] in
      encoded_text ← encodeText input_text char_codes;
      let serialized_tree := serializeHuffmanTree root in
      Ok (Some (serialized_tree, encoded_text))
  end.

(** ** deleteHuffmanTree

    The nodes handed to [delete], in the order of the calls.  Both child
    pointers are read before the node itself is deleted. *)

Fixpoint deleteHuffmanTree (root : HuffmanTreeNode) : list HuffmanTreeNode :=
  match root with
  | nullptr => []
  | Node _ _ l r => deleteHuffmanTree l ++ deleteHuffmanTree r ++ [root]
  end.

(** ** count_freqs (phaseOne.cpp)

    The characters written to [std::cout].  The counting loop is the one
    of [countCharFrequencies]: [frequencies[ch]++] for every character
    read, white space included. *)





(** ** The accesses, checked

    [deserializeHuffmanTreeHelper] and [decodeText] once more, with every
    read of the string and every use of a node pointer guarded: a read
    beyond position [size()] and a call through [nullptr] are
    [Err Undefined]. *)

Definition checked_char_at (s : list ascii) (i : nat) : result ascii :=
  if decide (i ≤ length s) then Ok (char_at s i) else Err Undefined.


Fixpoint deserializeHuffmanTreeHelper_checked (fuel : nat)
    (serialized_tree : list ascii) (index : nat)
    : result (HuffmanTreeNode * nat) :=
  match fuel with
  | O => Err OutOfFuel
  | S fuel =>
      let size := length serialized_tree in
      if decide (size ≤ index) then Ok (nullptr, index)
      else
        type ← checked_char_at serialized_tree index;
        let index := S index in
        if decide (type = "L") then
          val ← checked_char_at serialized_tree index;
          let index := S index in
          Ok (Node val 0 nullptr nullptr, index)
        else
          '(l, index) ← deserializeHuffmanTreeHelper_checked fuel serialized_tree index;
          '(r, index) ← deserializeHuffmanTreeHelper_checked fuel serialized_tree index;
          Ok (Node "000" 0 l r, index)
  end.



(** ** A concrete platform

    Iteration in [map_to_list] order; the queue is a list kept in
    ascending order of frequency, a new node going before the first node
    that is not lighter. *)

Fixpoint insert_by_freq (x : HuffmanTreeNode) (q : list HuffmanTreeNode)
    : list HuffmanTreeNode :=
  match q with
  | [] => [x]
  | y :: q' =>
      if decide (get_freq x ≤ get_freq y)%Z then x :: q
      else y :: insert_by_freq x q'
  end.

#[global] Program Instance sorted_list_platform : Platform := {|
  iteration := map_to_list;
  priority_queue := list HuffmanTreeNode;
  pq_new := [];
  pq_push := insert_by_freq;
  pq_top := head;
  pq_pop := tail;
  pq_size := length;
  pq_contents := λ q, q
|}.
Next Obligation. done. Qed.
Next Obligation. done. Qed.
Next Obligation.
  intros x q. induction q as [|y q IH]; simpl; [done|].
  case_decide; [done|]. rewrite IH. apply Permutation_swap.
Qed.
Next Obligation. done. Qed.
Next Obligation. by intros ? ->. Qed.
Next Obligation. intros [|x q] ?; [done|]. by exists x. Qed.

(** * Properties *)

(** ** Vocabulary *)

(** The outcome is an exception or an undefined behaviour, not a value. *)
Definition raises {A} (c : result A) : Prop := ∃ e, c = Err e.

Definition returns {A} (c : result A) : Prop := ∃ a, c = Ok a.

(** A strict binary tree: every node is a leaf or has both children. *)
Inductive proper : HuffmanTreeNode → Prop :=
| proper_leaf v f : proper (Node v f nullptr nullptr)
| proper_internal v f l r : proper l → proper r → proper (Node v f l r).

(** The symbols at the leaves, left to right. *)
Fixpoint leaves (t : HuffmanTreeNode) : list ascii :=
  match t with
  | nullptr => []
  | Node v _ l r => if isLeaf t then [v] else leaves l ++ leaves r
  end.

(** All the nodes of a tree, in preorder. *)
Fixpoint nodes (t : HuffmanTreeNode) : list HuffmanTreeNode :=
  match t with
  | nullptr => []
  | Node _ _ l r => t :: nodes l ++ nodes r
  end.

Definition children (n : HuffmanTreeNode) : nat :=
  (if is_null (get_left n) then 0 else 1) + (if is_null (get_right n) then 0 else 1).

Fixpoint height (t : HuffmanTreeNode) : nat :=
  match t with
  | nullptr => 0
  | Node _ _ l r => S (height l `max` height r)
  end.

(** Same shape, same symbol at each leaf position; frequencies and the
    symbol fields of internal nodes are not compared. *)
Fixpoint same_structure (t1 t2 : HuffmanTreeNode) : bool :=
  match t1, t2 with
  | nullptr, nullptr => true
  | Node v1 _ l1 r1, Node v2 _ l2 r2 =>
      if isLeaf t1 then isLeaf t2 && bool_decide (v1 = v2)
      else negb (isLeaf t2) && same_structure l1 l2 && same_structure r1 r2
  | _, _ => false
  end.

(** What deserialization makes of a serialized tree: frequencies are 0
    and internal nodes hold the null character. *)
Fixpoint blank (t : HuffmanTreeNode) : HuffmanTreeNode :=
  match t with
  | nullptr => nullptr
  | Node v _ l r =>
      if isLeaf t then Node v 0 nullptr nullptr
      else Node "000" 0 (blank l) (blank r)
  end.

(** [leaf_at t p c]: following the path [p] from [t], ['0'] to the left
    and ['1'] to the right, passes internal nodes only and ends at a leaf
    that holds [c]. *)
Inductive leaf_at : HuffmanTreeNode → list ascii → ascii → Prop :=
| leaf_here c f : leaf_at (Node c f nullptr nullptr) [] c
| leaf_left v f l r p c :
    isLeaf (Node v f l r) = false → leaf_at l p c →
    leaf_at (Node v f l r) ("0" :: p) c
| leaf_right v f l r p c :
    isLeaf (Node v f l r) = false → leaf_at r p c →
    leaf_at (Node v f l r) ("1" :: p) c.

Definition is_bit (c : ascii) : Prop := c = "0" ∨ c = "1".

Fixpoint sum_Z (l : list Z) : Z :=
  match l with
  | [] => 0
  | x :: l => x + sum_Z l
  end%Z.

(** The decoding state machine in the words of the specification: a
    cursor starts at the root; ['0'] moves it to the left child and ['1']
    to the right child; a cursor that becomes null is an error; on a leaf
    the symbol is emitted and the cursor goes back to the root; when the
    bits are used up the cursor must be at the root.  The cursor is a
    position in the tree, given by the path that leads to it from the
    root; the machine is only meant for strings of ['0'] and ['1']. *)
Module Spec.

Definition child (t : HuffmanTreeNode) (bit : ascii) : HuffmanTreeNode :=
  if decide (bit = "0") then get_left t else get_right t.




End Spec.

(** The round trip of the specification, with [decodeText] as [decode]. *)
Definition round_trip `{Platform} (b : list ascii) : result (list ascii) :=
  freqs ← countCharFrequencies b;
  root ← buildHuffmanTree freqs;
  bits ← encodeText b (generateCharCodes root ∅ []);
  decodeText bits root.

(** Every internal node carries the sum of its children's frequencies. *)
Fixpoint sums (t : HuffmanTreeNode) : Prop :=
  match t with
  | nullptr => True
  | Node _ f l r =>
      if isLeaf t then True
      else f = (get_freq l + get_freq r)%Z ∧ sums l ∧ sums r
  end.

Definition forest_leaves (ts : list HuffmanTreeNode) : list ascii :=
  ts ≫= leaves.

(** The invariant of the merge loop: the queue holds strict binary trees
    with summed frequencies, whose leaves together are the symbols [keys]
    and whose root frequencies add up to [total]. *)
Definition forest_inv (keys : list ascii) (total : Z)
    (ts : list HuffmanTreeNode) : Prop :=
  Forall proper ts ∧ Forall sums ts ∧
  forest_leaves ts ≡ₚ keys ∧ sum_Z (get_freq <$> ts) = total.

(** The leaves pushed on the queue for the entries of a table. *)
Definition leaves_of (entries : list (ascii * Z)) : list HuffmanTreeNode :=
  (λ e, new_leaf e.1 e.2) <$> entries.

(** The sum of the counts of a table. *)
Definition total_count (m : gmap ascii Z) : Z := sum_Z (map_to_list m).*2.

(** The table a:3, b:2, c:1 of [testBuildHuffmanTree]. *)
Definition abc_frequencies : gmap ascii Z :=
  <["a" := 3%Z]> (<["b" := 2%Z]> (<["c" := 1%Z]> ∅)).

(** How often a character occurs in a text. *)
Definition occurrences (c : ascii) (input : list ascii) : nat :=
  length (filter (λ x, x = c) input).

(** The distinct characters of a text. *)
Definition alphabet (input : list ascii) : gset ascii := list_to_set input.

(** The symbols at the leaves with the frequencies stored there. *)
Fixpoint leaf_entries (t : HuffmanTreeNode) : list (ascii * Z) :=
  match t with
  | nullptr => []
  | Node v f l r => if isLeaf t then [(v, f)] else leaf_entries l ++ leaf_entries r
  end.

(** What [deserializeHuffmanTreeHelper] makes of the string from position
    [index] on, once its fuel suffices: the node, and the position at
    which it stops. *)
Definition parse_at (s : list ascii) (index : nat) : HuffmanTreeNode * nat :=
  match deserializeHuffmanTreeHelper (S (length s - index)) s index with
  | Ok r => r
  | Err _ => (nullptr, index)
  end.

(** The text of a file as a list of characters. *)
Definition text (s : string) : list ascii := list_ascii_of_string s.

(** ** Sequencing *)

Lemma bind_Ok {A B} (a : A) (k : A → result B) : (Ok a ≫= k) = k a.
Proof. done. Qed.

Lemma bind_Ok_inv {A B} (c : result A) (k : A → result B) b :
  c ≫= k = Ok b → ∃ a, c = Ok a ∧ k a = Ok b.
Proof. destruct c as [a|e]; [by exists a|done]. Qed.

(** ** Basic facts about trees *)

Lemma proper_not_null t : proper t → is_null t = false.
Proof. by intros []. Qed.

Lemma isLeaf_proper_child v f l r : proper l → isLeaf (Node v f l r) = false.
Proof. by intros []. Qed.

Lemma isLeaf_true n : isLeaf n = true → ∃ v f, n = Node v f nullptr nullptr.
Proof. destruct n as [|v f [] []]; try done. by exists v, f. Qed.

Lemma isLeaf_Node v f l r : isLeaf (Node v f l r) = is_null l && is_null r.
Proof. by destruct l, r. Qed.

Lemma is_null_blank t : is_null (blank t) = is_null t.
Proof. destruct t as [|v f l r]; [done|]. cbn [blank]. by destruct (isLeaf _). Qed.

Lemma isLeaf_blank t : isLeaf (blank t) = isLeaf t.
Proof.
  destruct t as [|v f l r]; [done|].
  cbn [blank]. destruct (isLeaf (Node v f l r)) eqn:E; [done|].
  rewrite isLeaf_Node in *. by rewrite !is_null_blank.
Qed.

Lemma proper_blank t : proper t → proper (blank t).
Proof.
  induction 1 as [|v f l r Hl IHl Hr IHr]; [constructor|].
  cbn [blank]. rewrite (isLeaf_proper_child _ _ _ _ Hl). by constructor.
Qed.

Lemma same_structure_blank t : same_structure t (blank t) = true.
Proof.
  induction t as [|v f l IHl r IHr]; [done|].
  pose proof (isLeaf_blank (Node v f l r)) as Hb.
  cbn [same_structure blank] in *. destruct (isLeaf (Node v f l r)) eqn:E.
  - simpl. by rewrite bool_decide_eq_true.
  - by rewrite Hb, IHl, IHr.
Qed.

Lemma leaves_blank t : leaves (blank t) = leaves t.
Proof.
  induction t as [|v f l IHl r IHr]; [done|].
  pose proof (isLeaf_blank (Node v f l r)) as Hb.
  cbn [blank] in *. destruct (isLeaf (Node v f l r)) eqn:E.
  { by apply isLeaf_true in E as (? & ? & [= -> -> -> ->]). }
  cbn [leaves]. by rewrite Hb, E, IHl, IHr.
Qed.

Lemma leaves_internal v f l r :
  isLeaf (Node v f l r) = false → leaves (Node v f l r) = leaves l ++ leaves r.
Proof. intros E. cbn [leaves]. by rewrite E. Qed.

Lemma proper_leaves t : proper t → leaves t ≠ [].
Proof.
  induction 1 as [|v f l r Hl IHl Hr IHr]; [done|].
  rewrite leaves_internal by by apply isLeaf_proper_child.
  by intros [? _]%app_eq_nil.
Qed.

Lemma height_le_serialize t :
  proper t → height t ≤ length (serializeHuffmanTree t).
Proof.
  induction 1 as [|v f l r Hl IHl Hr IHr]; [simpl; lia|].
  cbn [serializeHuffmanTree height].
  rewrite (isLeaf_proper_child _ _ _ _ Hl). simpl. rewrite length_app. lia.
Qed.

(** ** Reading a string by position *)

Lemma drop_cons_inv (s : list ascii) i x xs :
  drop i s = x :: xs →
  i < length s ∧ char_at s i = x ∧ drop (S i) s = xs.
Proof.
  intros H. assert (s !! i = Some x) as Hi.
  { rewrite <-(Nat.add_0_r i), <-lookup_drop, H. done. }
  split; [by eapply lookup_lt_Some|]. split.
  - unfold char_at. by rewrite nth_lookup, Hi.
  - rewrite (drop_S _ _ _ Hi) in H. by inversion H.
Qed.

Lemma drop_app_inv (s a b : list ascii) i :
  drop i s = a ++ b → drop (i + length a) s = b.
Proof. intros H. by rewrite <-drop_drop, H, drop_app_length. Qed.

(** ** deserializeHuffmanTreeHelper always returns *)

Lemma deserializeHuffmanTreeHelper_returns fuel s i :
  length s - i < fuel →
  ∃ t j, deserializeHuffmanTreeHelper fuel s i = Ok (t, j) ∧ i ≤ j.
Proof.
  revert i. induction fuel as [|fuel IH]; intros i Hf; [lia|].
  cbn [deserializeHuffmanTreeHelper]. case_decide; [eauto|].
  case_decide; [eexists _, _; split; [done|lia]|].
  destruct (IH (S i)) as (l & j1 & -> & ?); [lia|].
  destruct (IH j1) as (r & j2 & E2 & ?); [lia|].
  cbn. rewrite E2. cbn. eexists _, _; split; [done|lia].
Qed.

Lemma deserialize_tree_pos_returns fuel s i :
  length s - i < fuel →
  ∃ t j, deserialize_tree_pos fuel s i = Ok (t, j) ∧ i ≤ j.
Proof.
  revert i. induction fuel as [|fuel IH]; intros i Hf; [lia|].
  cbn [deserialize_tree_pos]. case_decide; [eauto|].
  case_decide; [eexists _, _; split; [done|lia]|].
  destruct (IH (S i)) as (l & j1 & -> & ?); [lia|].
  destruct (IH j1) as (r & j2 & E2 & ?); [lia|].
  cbn. rewrite E2. cbn. eexists _, _; split; [done|lia].
Qed.

Lemma deserializeHuffmanTree_returns s : returns (deserializeHuffmanTree s).
Proof.
  destruct s as [|c s]; [by exists nullptr|].
  unfold deserializeHuffmanTree.
  destruct (deserializeHuffmanTreeHelper_returns (S (length (c :: s))) (c :: s) 0)
    as (t & j & -> & _); [lia|].
  by exists t.
Qed.

(** ** Deserializing a serialized tree *)

Lemma deserializeHuffmanTreeHelper_serialize t :
  proper t → ∀ fuel s i rest,
  height t ≤ fuel →
  drop i s = serializeHuffmanTree t ++ rest →
  deserializeHuffmanTreeHelper fuel s i
  = Ok (blank t, i + length (serializeHuffmanTree t)).
Proof.
  induction 1 as [v f|v f l r Hl IHl Hr IHr]; intros fuel s i rest Hf Hd.
  - destruct fuel as [|fuel]; [simpl in Hf; lia|].
    simpl in Hd. apply drop_cons_inv in Hd as (Hi & Hc & Hd).
    apply drop_cons_inv in Hd as (_ & Hv & _).
    cbn [deserializeHuffmanTreeHelper]. case_decide; [lia|].
    rewrite decide_True by done. rewrite Hv. simpl.
    do 2 f_equal. lia.
  - destruct fuel as [|fuel]; [simpl in Hf; lia|].
    cbn [height] in Hf.
    cbn [serializeHuffmanTree blank] in *.
    rewrite (isLeaf_proper_child _ _ _ _ Hl) in *.
    simpl in Hd. apply drop_cons_inv in Hd as (Hi & Hc & Hd).
    rewrite <-app_assoc in Hd.
    cbn [deserializeHuffmanTreeHelper]. case_decide; [lia|].
    rewrite decide_False by (rewrite Hc; done).
    erewrite IHl; [|lia|exact Hd]. cbn.
    apply drop_app_inv in Hd.
    erewrite IHr; [|lia|exact Hd]. cbn.
    do 2 f_equal. simpl. rewrite length_app. lia.
Qed.

Lemma deserialize_serialize t :
  proper t → deserializeHuffmanTree (serializeHuffmanTree t) = Ok (blank t).
Proof.
  intros Ht. unfold deserializeHuffmanTree.
  pose proof (height_le_serialize t Ht) as Hh.
  destruct (serializeHuffmanTree t) as [|c s] eqn:E.
  { destruct Ht; simpl in Hh; lia. }
  rewrite <-E in *.
  erewrite deserializeHuffmanTreeHelper_serialize with (rest := []);
    [done|done|lia|by rewrite app_nil_r].
Qed.

(** ** The two deserializers side by side *)

Lemma same_structure_is_null t1 t2 :
  same_structure t1 t2 = true → is_null t1 = is_null t2.
Proof. by destruct t1, t2. Qed.

Lemma same_structure_Node v f1 f2 l1 r1 l2 r2 :
  same_structure l1 l2 = true → same_structure r1 r2 = true →
  same_structure (Node v f1 l1 r1) (Node v f2 l2 r2) = true.
Proof.
  intros Hl Hr. cbn [same_structure]. rewrite !isLeaf_Node, Hl, Hr.
  rewrite (same_structure_is_null _ _ Hl), (same_structure_is_null _ _ Hr).
  destruct (is_null l2 && is_null r2); simpl; [by rewrite bool_decide_eq_true|done].
Qed.

Lemma deserializers_agree fuel s i :
  match deserialize_tree_pos fuel s i, deserializeHuffmanTreeHelper fuel s i with
  | Ok (t1, j1), Ok (t2, j2) => same_structure t1 t2 = true ∧ j1 = j2
  | Err e1, Err e2 => e1 = e2
  | _, _ => False
  end.
Proof.
  revert i. induction fuel as [|fuel IH]; intros i; [done|].
  cbn [deserialize_tree_pos deserializeHuffmanTreeHelper].
  case_decide; [done|]. case_decide; [by rewrite same_structure_Node|].
  pose proof (IH (S i)) as H1.
  destruct (deserialize_tree_pos fuel s (S i)) as [[l1 j1]|e1],
    (deserializeHuffmanTreeHelper fuel s (S i)) as [[l2 j2]|e2]; try done.
  destruct H1 as [Hl ->]. cbn.
  pose proof (IH j2) as H2.
  destruct (deserialize_tree_pos fuel s j2) as [[r1 k1]|e1],
    (deserializeHuffmanTreeHelper fuel s j2) as [[r2 k2]|e2]; try done.
  destruct H2 as [Hr ->]. rewrite !bind_Ok. by rewrite same_structure_Node.
Qed.

Lemma serialize_tree_eq t : serialize_tree t = serializeHuffmanTree t.
Proof.
  induction t as [|v f l IHl r IHr]; [done|].
  cbn [serialize_tree serializeHuffmanTree]. by rewrite IHl, IHr.
Qed.

(** ** Strings that are not serialized trees *)

Lemma deserializeHuffmanTreeHelper_index fuel s i t j :
  deserializeHuffmanTreeHelper fuel s i = Ok (t, j) → i ≤ j.
Proof.
  revert i t j. induction fuel as [|fuel IH]; intros i t j; [done|].
  cbn [deserializeHuffmanTreeHelper].
  case_decide; [by intros [= _ ->]|]. case_decide; [intros [= _ <-]; lia|].
  intros ([l j1] & E1 & ([r j2] & E2 & [= _ <-])%bind_Ok_inv)%bind_Ok_inv.
  apply IH in E1, E2. lia.
Qed.

Lemma deserializeHuffmanTreeHelper_tail fuel c c' s i :
  1 ≤ i →
  deserializeHuffmanTreeHelper fuel (c :: s) i
  = deserializeHuffmanTreeHelper fuel (c' :: s) i.
Proof.
  revert i. induction fuel as [|fuel IH]; intros i Hi; [done|].
  destruct i as [|i]; [lia|].
  cbn [deserializeHuffmanTreeHelper]. simpl length. unfold char_at. simpl nth.
  case_decide; [done|]. case_decide; [done|].
  rewrite (IH (S (S i))) by lia.
  destruct (deserializeHuffmanTreeHelper fuel (c' :: s) (S (S i)))
    as [[l j]|e] eqn:E; [|done].
  apply deserializeHuffmanTreeHelper_index in E.
  rewrite !bind_Ok. by rewrite (IH j) by lia.
Qed.

Lemma deserializeHuffmanTree_other_tag c s :
  c ≠ "L" → deserializeHuffmanTree (c :: s) = deserializeHuffmanTree ("I" :: s).
Proof.
  intros Hc. unfold deserializeHuffmanTree.
  cbn [deserializeHuffmanTreeHelper]. simpl length. unfold char_at. simpl nth.
  rewrite !decide_False by (done || lia).
  rewrite (deserializeHuffmanTreeHelper_tail _ c "I") by lia.
  destruct (deserializeHuffmanTreeHelper (S (length s)) ("I" :: s) 1)
    as [[l j]|e] eqn:E; [|done].
  apply deserializeHuffmanTreeHelper_index in E.
  rewrite !bind_Ok. by rewrite (deserializeHuffmanTreeHelper_tail _ c "I" s j) by lia.
Qed.

Lemma deserializeHuffmanTree_cut_short t :
  proper t →
  deserializeHuffmanTree ("I" :: serializeHuffmanTree t)
  = Ok (Node "000" 0 (blank t) nullptr).
Proof.
  intros Ht. unfold deserializeHuffmanTree.
  cbn [deserializeHuffmanTreeHelper]. simpl length. unfold char_at at 1. simpl nth.
  rewrite !decide_False by (done || lia).
  pose proof (height_le_serialize t Ht).
  erewrite deserializeHuffmanTreeHelper_serialize with (rest := []);
    [|done|lia|by rewrite app_nil_r]. cbn.
  destruct (length (serializeHuffmanTree t)) eqn:E; cbn.
  - by rewrite decide_True by (simpl; lia).
  - by rewrite decide_True by (simpl; lia).
Qed.

(** ** buildHuffmanTree: the forest in the queue *)

Lemma sum_Z_perm l1 l2 : l1 ≡ₚ l2 → sum_Z l1 = sum_Z l2.
Proof. induction 1; simpl; lia. Qed.

#[global] Instance sum_Z_proper : Proper ((≡ₚ) ==> (=)) sum_Z.
Proof. intros l1 l2. apply sum_Z_perm. Qed.

Lemma sum_Z_nonneg l : Forall (λ x, 0 ≤ x)%Z l → (0 ≤ sum_Z l)%Z.
Proof. induction 1; simpl; lia. Qed.

Lemma forest_inv_perm keys total ts1 ts2 :
  ts1 ≡ₚ ts2 → forest_inv keys total ts1 → forest_inv keys total ts2.
Proof.
  intros Hp (H1 & H2 & H3 & H4). unfold forest_inv, forest_leaves in *.
  split_and!.
  - by apply (Forall_Permutation proper proper (λ _, reflexivity _) _ _ Hp).
  - by apply (Forall_Permutation sums sums (λ _, reflexivity _) _ _ Hp).
  - etrans; [|exact H3]. symmetry. by apply bind_Permutation.
  - rewrite <-H4. symmetry. by apply sum_Z_perm, fmap_Permutation.
Qed.

Lemma int_add_Ok a b s : int_add a b = Ok s → s = (a + b)%Z.
Proof. unfold int_add. case_decide; [by intros [= <-]|done]. Qed.

Lemma forest_inv_merge keys total l r rest f :
  forest_inv keys total (l :: r :: rest) →
  int_add (get_freq l) (get_freq r) = Ok f →
  forest_inv keys total (Node "000" f l r :: rest).
Proof.
  intros (H1 & H2 & H3 & H4) ->%int_add_Ok.
  apply Forall_cons in H1 as [Hl [Hr H1]%Forall_cons].
  apply Forall_cons in H2 as [Sl [Sr H2]%Forall_cons].
  unfold forest_inv, forest_leaves in *.
  pose proof (isLeaf_proper_child "000" (get_freq l + get_freq r) l r Hl) as E.
  split_and!.
  - constructor; [by constructor|done].
  - constructor; [|done]. cbn [sums]. by rewrite E.
  - rewrite <-H3. cbn [mbind list_bind leaves]. rewrite E.
    by rewrite <-app_assoc.
  - rewrite <-H4. simpl. lia.
Qed.

Section build.
Context `{Platform}.

Lemma push_leaves_contents entries pq :
  pq_contents (push_leaves entries pq)
  ≡ₚ ((λ e, new_leaf e.1 e.2) <$> entries) ++ pq_contents pq.
Proof.
  revert pq. induction entries as [|e entries IH]; intros pq; [done|].
  cbn [push_leaves]. rewrite IH, pq_contents_push. simpl.
  by rewrite Permutation_middle.
Qed.

(** One round of the loop, on the contents of the queue. *)
Lemma merge_round pq :
  1 < pq_size pq →
  ∃ l r,
    top pq = Ok l ∧ top (pq_pop pq) = Ok r ∧
    pq_contents pq ≡ₚ l :: r :: pq_contents (pq_pop (pq_pop pq)).
Proof.
  intros Hs. rewrite pq_size_contents in Hs.
  destruct (pq_top_pop pq) as (l & El & Hl).
  { intros E. rewrite E in Hs. simpl in Hs. lia. }
  destruct (pq_top_pop (pq_pop pq)) as (r & Er & Hr).
  { intros E. rewrite Hl, E in Hs. simpl in Hs. lia. }
  exists l, r. unfold top. rewrite El, Er. split_and!; try done.
  by rewrite Hl, Hr.
Qed.

Lemma merge_loop_inv keys total fuel pq pq' :
  merge_loop fuel pq = Ok pq' →
  forest_inv keys total (pq_contents pq) →
  forest_inv keys total (pq_contents pq') ∧ pq_size pq' ≤ 1 ∧
  (pq_contents pq ≠ [] → pq_contents pq' ≠ []).
Proof.
  revert pq. induction fuel as [|fuel IH]; intros pq; cbn [merge_loop];
    (case_decide as Hs; [|intros [= <-] ?; split_and!; [done|lia|done]]);
    [done|].
  destruct (merge_round pq Hs) as (l & r & -> & -> & Hp).
  rewrite !bind_Ok.
  intros (f & Ef & Hm)%bind_Ok_inv Hinv.
  apply IH in Hm as (? & ? & Hne).
  - split_and!; [done..|]. intros _. apply Hne.
    intros E. pose proof (pq_contents_push (Node "000" f l r) (pq_pop (pq_pop pq))) as Hq.
    rewrite E in Hq. by apply Permutation_nil_cons in Hq.
  - eapply forest_inv_perm; [symmetry; apply pq_contents_push|].
    apply forest_inv_merge; [|done].
    eapply forest_inv_perm; [exact Hp|done].
Qed.

Lemma merge_loop_fuel fuel pq e :
  pq_size pq ≤ S fuel → merge_loop fuel pq = Err e → e = Undefined.
Proof.
  revert pq. induction fuel as [|fuel IH]; intros pq Hf; cbn [merge_loop];
    (case_decide as Hs; [|done]); [lia|].
  destruct (merge_round pq Hs) as (l & r & -> & -> & Hp).
  rewrite !bind_Ok. unfold int_add. case_decide; [|by intros [= <-]].
  rewrite bind_Ok. apply IH.
  rewrite pq_size_contents, pq_contents_push. simpl.
  rewrite pq_size_contents, Hp in Hf. simpl in Hf. lia.
Qed.

Lemma merge_loop_returns fuel pq :
  pq_size pq ≤ S fuel →
  Forall (λ t, 0 ≤ get_freq t)%Z (pq_contents pq) →
  (sum_Z (get_freq <$> pq_contents pq) ≤ INT_MAX)%Z →
  returns (merge_loop fuel pq).
Proof.
  revert pq. induction fuel as [|fuel IH]; intros pq Hf Hpos Hsum;
    cbn [merge_loop]; (case_decide as Hs; [|by eexists]); [lia|].
  destruct (merge_round pq Hs) as (l & r & -> & -> & Hp).
  rewrite !bind_Ok. rewrite Hp in Hpos, Hsum.
  apply Forall_cons in Hpos as [Hl [Hr Hpos]%Forall_cons].
  rewrite !fmap_cons in Hsum. cbn [sum_Z] in Hsum.
  pose proof (sum_Z_nonneg _ (proj2 (Forall_fmap _ _ _) Hpos)).
  unfold int_add. rewrite decide_True by (unfold INT_MIN, INT_MAX in *; lia).
  rewrite bind_Ok. apply IH.
  - rewrite pq_size_contents, pq_contents_push. simpl.
    rewrite pq_size_contents, Hp in Hf. simpl in Hf. lia.
  - rewrite pq_contents_push. constructor; [simpl; lia|done].
  - rewrite pq_contents_push, fmap_cons. cbn [sum_Z get_freq]. lia.
Qed.

Lemma forest_inv_leaves entries :
  forest_inv entries.*1 (sum_Z entries.*2) (leaves_of entries).
Proof.
  unfold forest_inv, forest_leaves, leaves_of.
  induction entries as [|[c f] entries (H1 & H2 & H3 & H4)]; [by repeat constructor|].
  cbn. split_and!.
  - constructor; [constructor|done].
  - by constructor.
  - by constructor.
  - simpl in H4. lia.
Qed.

Lemma initial_queue (char_frequencies : gmap ascii Z) :
  pq_contents (push_leaves (iteration char_frequencies) pq_new)
  ≡ₚ leaves_of (map_to_list char_frequencies).
Proof.
  rewrite push_leaves_contents, pq_contents_new, app_nil_r.
  unfold leaves_of. by rewrite iteration_perm.
Qed.

(** What [buildHuffmanTree] returns, when it returns. *)
Lemma buildHuffmanTree_spec (char_frequencies : gmap ascii Z) root :
  buildHuffmanTree char_frequencies = Ok root →
  char_frequencies ≠ ∅ ∧ proper root ∧ sums root ∧
  leaves root ≡ₚ (map_to_list char_frequencies).*1 ∧
  get_freq root = sum_Z (map_to_list char_frequencies).*2.
Proof.
  unfold buildHuffmanTree. cbn zeta.
  intros (pq' & Hm & Ht)%bind_Ok_inv.
  eapply merge_loop_inv in Hm as (Hinv & Hs & Hne).
  2:{ eapply forest_inv_perm; [symmetry; apply initial_queue|].
      apply forest_inv_leaves. }
  unfold top in Ht. destruct (pq_top pq') as [t|] eqn:Et; [|done].
  injection Ht as ->.
  destruct (pq_top_pop pq') as (x & Ex & Hp).
  { intros E. by rewrite (pq_top_empty _ E) in Et. }
  rewrite Et in Ex. injection Ex as <-.
  rewrite pq_size_contents, Hp in Hs. simpl in Hs.
  destruct (pq_contents (pq_pop pq')) as [|? ?] eqn:E; [|simpl in Hs; lia].
  eapply forest_inv_perm in Hinv as (H1 & H2 & H3 & H4); [|exact Hp].
  rewrite Forall_singleton in H1, H2.
  unfold forest_leaves in H3. cbn in H3, H4. rewrite app_nil_r in H3.
  split_and!; [|done|done|done|lia].
  intros ->. rewrite map_to_list_empty in H3.
  apply Permutation_nil_r in H3. by apply proper_leaves in H1.
Qed.

Lemma buildHuffmanTree_fuel (char_frequencies : gmap ascii Z) :
  buildHuffmanTree char_frequencies ≠ Err OutOfFuel.
Proof.
  unfold buildHuffmanTree. cbn zeta.
  destruct (merge_loop _ _) as [pq'|e] eqn:E.
  - rewrite bind_Ok. unfold top. by destruct (pq_top pq').
  - apply merge_loop_fuel in E as ->; [done|lia].
Qed.

(** It does return, on a table of counts that add up within [int]. *)
Lemma buildHuffmanTree_returns (char_frequencies : gmap ascii Z) :
  char_frequencies ≠ ∅ →
  map_Forall (λ _ n, 0 ≤ n)%Z char_frequencies →
  (sum_Z (map_to_list char_frequencies).*2 ≤ INT_MAX)%Z →
  returns (buildHuffmanTree char_frequencies).
Proof.
  intros Hne Hpos Hsum. unfold buildHuffmanTree. cbn zeta.
  pose proof (initial_queue char_frequencies) as Hq.
  destruct (merge_loop_returns
    (pq_size (push_leaves (iteration char_frequencies) pq_new))
    (push_leaves (iteration char_frequencies) pq_new)) as [pq' Hm].
  - lia.
  - rewrite Hq. unfold leaves_of. apply Forall_fmap, Forall_forall.
    intros [c n] Hin%elem_of_map_to_list. simpl. by apply (Hpos c n).
  - rewrite Hq. unfold leaves_of.
    rewrite <-list_fmap_compose.
    by replace (sum_Z _) with (sum_Z (map_to_list char_frequencies).*2).
  - rewrite Hm, bind_Ok.
    eapply merge_loop_inv in Hm as (_ & _ & Hn).
    2:{ eapply forest_inv_perm; [symmetry; apply initial_queue|].
        apply forest_inv_leaves. }
    destruct (pq_top_pop pq') as (x & Ex & _).
    { apply Hn. intros E. rewrite E in Hq. symmetry in Hq.
      apply Permutation_nil_r, fmap_nil_inv in Hq.
      by apply map_to_list_empty_iff in Hq. }
    exists x. unfold top. by rewrite Ex.
Qed.
End build.

(** ** Codes are the paths to the leaves *)

Lemma leaf_at_leaves t p c : leaf_at t p c → c ∈ leaves t.
Proof.
  induction 1 as [c f|v f l r p c E _ IH|v f l r p c E _ IH].
  - simpl. by apply list_elem_of_singleton.
  - rewrite leaves_internal by done. apply elem_of_app. by left.
  - rewrite leaves_internal by done. apply elem_of_app. by right.
Qed.

Lemma leaves_leaf_at t c : proper t → c ∈ leaves t → ∃ p, leaf_at t p c.
Proof.
  induction 1 as [v f|v f l r Hl IHl Hr IHr].
  - simpl. intros ->%list_elem_of_singleton. exists []. constructor.
  - pose proof (isLeaf_proper_child v f l r Hl) as E.
    rewrite leaves_internal by done. intros [Hc|Hc]%elem_of_app.
    + destruct (IHl Hc) as [p Hp]. exists ("0" :: p). by constructor.
    + destruct (IHr Hc) as [p Hp]. exists ("1" :: p). by constructor.
Qed.

Lemma leaf_at_nil t c : leaf_at t [] c → isLeaf t = true ∧ get_val t = c.
Proof. by inversion 1. Qed.

Lemma leaf_at_cons t b p c : leaf_at t (b :: p) c → isLeaf t = false.
Proof. by inversion 1. Qed.

Lemma leaf_at_not_null t p c : leaf_at t p c → is_null t = false.
Proof. by inversion 1. Qed.

Lemma leaf_at_bits t p c : leaf_at t p c → Forall is_bit p.
Proof.
  induction 1; constructor; try done; [by left|by right].
Qed.

(** No path to a leaf continues to another leaf. *)
Lemma leaf_at_prefix t p q c c' :
  leaf_at t p c → leaf_at t (p ++ q) c' → q = [] ∧ c = c'.
Proof.
  induction 1 as [c f|v f l r p c E _ IH|v f l r p c E _ IH]; simpl.
  - intros Hq. by inversion Hq; subst.
  - intros Hq. inversion Hq; subst. by apply IH.
  - intros Hq. inversion Hq; subst. by apply IH.
Qed.

Lemma generateCharCodes_other t m code c :
  c ∉ leaves t → generateCharCodes t m code !! c = m !! c.
Proof.
  revert m code. induction t as [|v f l IHl r IHr]; intros m code Hc; [done|].
  cbn [generateCharCodes]. destruct (isLeaf (Node v f l r)) eqn:E.
  - cbn [leaves] in Hc. rewrite E in Hc.
    apply lookup_insert_ne. intros ->. apply Hc, list_elem_of_singleton. done.
  - rewrite leaves_internal in Hc by done.
    rewrite IHr, IHl; [done|..]; intros ?; apply Hc, elem_of_app; auto.
Qed.

Lemma generateCharCodes_leaf_at t p c :
  leaf_at t p c → ∀ m code,
  NoDup (leaves t) → generateCharCodes t m code !! c = Some (code ++ p).
Proof.
  induction 1 as [c f|v f l r p c E Hp IH|v f l r p c E Hp IH]; intros m code Hnd.
  - simpl. by rewrite lookup_insert_eq, app_nil_r.
  - cbn [generateCharCodes]. rewrite E.
    rewrite leaves_internal in Hnd by done.
    apply NoDup_app in Hnd as (Hl & Hlr & Hr).
    rewrite generateCharCodes_other by (by apply Hlr, leaf_at_leaves with p).
    rewrite IH by done. by rewrite <-app_assoc.
  - cbn [generateCharCodes]. rewrite E.
    rewrite leaves_internal in Hnd by done.
    apply NoDup_app in Hnd as (Hl & Hlr & Hr).
    rewrite IH by done. by rewrite <-app_assoc.
Qed.

Lemma generateCharCodes_dom t m code :
  dom (generateCharCodes t m code) = dom m ∪ list_to_set (leaves t).
Proof.
  revert m code. induction t as [|v f l IHl r IHr]; intros m code.
  - simpl. by rewrite (right_id_L ∅ (∪)).
  - cbn [generateCharCodes]. destruct (isLeaf (Node v f l r)) eqn:E.
    + cbn [leaves]. rewrite E, dom_insert_L. simpl.
      by rewrite (right_id_L ∅ (∪)), (comm_L (∪)).
    + rewrite leaves_internal by done.
      by rewrite IHr, IHl, list_to_set_app_L, (assoc_L (∪)).
Qed.

Lemma generateCharCodes_size t :
  NoDup (leaves t) → size (generateCharCodes t ∅ []) = length (leaves t).
Proof.
  intros Hnd. rewrite <-size_dom, generateCharCodes_dom, dom_empty_L.
  rewrite (left_id_L ∅ (∪)). by apply size_list_to_set.
Qed.

(** The entries of the table are exactly the paths to the leaves. *)
Lemma generateCharCodes_spec t c w :
  proper t → NoDup (leaves t) →
  generateCharCodes t ∅ [] !! c = Some w ↔ leaf_at t w c.
Proof.
  intros Ht Hnd. split.
  - intros Hw. destruct (decide (c ∈ leaves t)) as [Hc|Hc].
    + destruct (leaves_leaf_at t c Ht Hc) as [p Hp].
      rewrite (generateCharCodes_leaf_at t p c Hp ∅ [] Hnd) in Hw.
      by simplify_eq.
    + by rewrite generateCharCodes_other in Hw.
  - intros Hp. by rewrite (generateCharCodes_leaf_at t w c Hp ∅ [] Hnd).
Qed.

(** ** One code word, decoded *)

Lemma decodeText_loop_codeword root sub p c rest out flag :
  leaf_at sub p c → p ≠ [] →
  decodeText_loop root (p ++ rest) out sub flag
  = decodeText_loop root rest (out ++ [c]) root true.
Proof.
  intros Hp. revert flag.
  induction Hp as [c f|v f l r p c E Hp IH|v f l r p c E Hp IH];
    intros flag Hne; [done|..].
  - cbn [app decodeText_loop]. rewrite decide_True by done.
    cbn [get_left]. rewrite (leaf_at_not_null _ _ _ Hp).
    destruct p as [|b p].
    + apply leaf_at_nil in Hp as [-> ->]. done.
    + rewrite (leaf_at_cons _ _ _ _ Hp). by apply IH.
  - cbn [app decodeText_loop]. rewrite decide_False by done.
    rewrite decide_True by done.
    cbn [get_right]. rewrite (leaf_at_not_null _ _ _ Hp).
    destruct p as [|b p].
    + apply leaf_at_nil in Hp as [-> ->]. done.
    + rewrite (leaf_at_cons _ _ _ _ Hp). by apply IH.
Qed.

Lemma encode_decode_loop root (codes : gmap ascii (list ascii)) b :
  (∀ c, c ∈ b → ∃ p, codes !! c = Some p ∧ leaf_at root p c ∧ p ≠ []) →
  ∀ acc, ∃ bits,
    encodeText_loop b codes acc = Ok (acc ++ bits) ∧
    ∀ out, decodeText_loop root bits out root true = Ok (out ++ b).
Proof.
  induction b as [|c b IH]; intros Hb acc.
  - exists []. rewrite app_nil_r. split; [done|]. intros out. by rewrite app_nil_r.
  - destruct (Hb c) as (p & Ec & Hp & Hne); [by left|].
    destruct IH with (acc := acc ++ p) as (bits & Hen & Hde).
    { intros c' Hc'. apply Hb. by right. }
    exists (p ++ bits). cbn [encodeText_loop]. rewrite Ec, Hen.
    split; [by rewrite app_assoc|]. intros out.
    rewrite (decodeText_loop_codeword root root p c bits out true Hp Hne).
    rewrite Hde. by rewrite <-app_assoc.
Qed.

(** ** The single-leaf case of [decoder] *)

Lemma allZeros_loop_false s : allZeros_loop s false = false.
Proof. by destruct s. Qed.

Lemma allZeros_loop_true s :
  allZeros_loop s true = true ↔ Forall (λ c, c = "0") s.
Proof.
  induction s as [|c s IH]; [done|]. cbn [allZeros_loop].
  destruct (decide (c ≠ "0")) as [Hc|Hc].
  - rewrite allZeros_loop_false. split; [done|]. by intros [? _]%Forall_cons.
  - apply dec_stable in Hc as ->. rewrite IH. split; [by constructor|].
    by intros [_ ?]%Forall_cons.
Qed.

Lemma allZeros_loop_replicate n : allZeros_loop (replicate n "0") true = true.
Proof. apply allZeros_loop_true, Forall_replicate. done. Qed.

(** Against a leaf, [decodeText] fails at the first ['0'] or ['1']. *)
Lemma decodeText_loop_leaf v f bit s out flag :
  is_bit bit →
  decodeText_loop (Node v f nullptr nullptr) (bit :: s) out
    (Node v f nullptr nullptr) flag = Err EncodingMismatch.
Proof. intros [-> | ->]; done. Qed.

(** ** countCharFrequencies *)

Lemma total_count_delete (m : gmap ascii Z) c x :
  m !! c = Some x → total_count m = (x + total_count (delete c m))%Z.
Proof.
  intros Hc. unfold total_count.
  by rewrite <-(map_to_list_delete m c x Hc).
Qed.

Lemma total_count_insert (m : gmap ascii Z) c n :
  total_count (<[c:=n]> m) = (total_count m - default 0 (m !! c) + n)%Z.
Proof.
  destruct (m !! c) as [x|] eqn:Hc; simpl.
  - rewrite (total_count_delete m c x Hc), <-insert_delete_eq.
    unfold total_count. rewrite map_to_list_insert by apply lookup_delete_eq.
    rewrite fmap_cons. cbn [sum_Z snd]. lia.
  - unfold total_count. rewrite map_to_list_insert by done.
    rewrite fmap_cons. cbn [sum_Z snd]. lia.
Qed.

Lemma total_count_nonneg (m : gmap ascii Z) :
  map_Forall (λ _ n, 0 ≤ n)%Z m → (0 ≤ total_count m)%Z.
Proof.
  intros Hm. apply sum_Z_nonneg, Forall_fmap, Forall_forall.
  intros [c n] Hin%elem_of_map_to_list. by apply (Hm c n).
Qed.

Lemma lookup_le_total_count (m : gmap ascii Z) c :
  map_Forall (λ _ n, 0 ≤ n)%Z m →
  (0 ≤ default 0 (m !! c) ≤ total_count m)%Z.
Proof.
  intros Hm. pose proof (total_count_nonneg m Hm).
  destruct (m !! c) as [x|] eqn:Hc; simpl; [|lia].
  rewrite (total_count_delete m c x Hc).
  pose proof (Hm c x Hc). simpl in *.
  assert (0 ≤ total_count (delete c m))%Z; [|lia].
  apply total_count_nonneg. intros c' n [_ Hn]%lookup_delete_Some.
  by apply (Hm c' n).
Qed.

Lemma countCharFrequencies_loop_spec text (m : gmap ascii Z) :
  map_Forall (λ _ n, 0 ≤ n)%Z m →
  (total_count m + Z.of_nat (length text) ≤ INT_MAX)%Z →
  ∃ freqs,
    countCharFrequencies_loop text m = Ok freqs ∧
    map_Forall (λ _ n, 0 ≤ n)%Z freqs ∧
    total_count freqs = (total_count m + Z.of_nat (length text))%Z ∧
    ∀ c, is_Some (freqs !! c) ↔ is_Some (m !! c) ∨ c ∈ text.
Proof.
  revert m. induction text as [|c text IH]; intros m Hm Hsum.
  - exists m. split_and!; [done|done|simpl; lia|].
    intros c. split; [auto|]. intros [?|?%elem_of_nil]; done.
  - cbn [countCharFrequencies_loop].
    pose proof (lookup_le_total_count m c Hm) as Hc.
    rewrite length_cons in Hsum.
    unfold int_add.
    rewrite decide_True by (unfold INT_MIN, INT_MAX in *; lia).
    rewrite bind_Ok.
    destruct (IH (<[c := (default 0 (m !! c) + 1)%Z]> m))
      as (freqs & Hf & Hpos & Htot & Hdom).
    { apply map_Forall_insert_2; [lia|done]. }
    { rewrite total_count_insert. lia. }
    exists freqs. split_and!; [done|done|..].
    + rewrite Htot, total_count_insert, length_cons. lia.
    + intros c'. rewrite Hdom, lookup_insert_is_Some, elem_of_cons.
      destruct (decide (c = c')) as [->|Hne]; [by intuition|].
      split.
      * intros [[?|[_ ?]]|?]; [done|by left|by right; right].
      * intros [?|[->|?]]; [by left; right|done|by right].
Qed.

Lemma countCharFrequencies_spec text :
  (Z.of_nat (length text) ≤ INT_MAX)%Z →
  ∃ freqs,
    countCharFrequencies text = Ok freqs ∧
    map_Forall (λ _ n, 0 ≤ n)%Z freqs ∧
    total_count freqs = Z.of_nat (length text) ∧
    ∀ c, is_Some (freqs !! c) ↔ c ∈ text.
Proof.
  intros Hlen. unfold countCharFrequencies.
  destruct (countCharFrequencies_loop_spec text ∅)
    as (freqs & Hf & Hpos & Htot & Hdom).
  - apply map_Forall_empty.
  - unfold total_count. rewrite map_to_list_empty. simpl. lia.
  - exists freqs. split_and!; [done|done|..].
    + rewrite Htot. unfold total_count. rewrite map_to_list_empty. simpl. lia.
    + intros c. rewrite Hdom, lookup_empty. split; [|auto].
      by intros [[]%is_Some_None|?].
Qed.

(** ** [decodeText] and the state machine of the specification *)




(** ** Nodes of a built tree *)

Lemma proper_nodes t n : proper t → n ∈ nodes t → proper n.
Proof.
  induction 1 as [v f|v f l r Hl IHl Hr IHr]; simpl.
  - intros ->%list_elem_of_singleton. constructor.
  - intros [->|[?|?]%elem_of_app]%elem_of_cons; auto. by constructor.
Qed.

Lemma sums_nodes t n : sums t → n ∈ nodes t → sums n.
Proof.
  induction t as [|v f l IHl r IHr]; [by intros _ ?%elem_of_nil|].
  cbn [nodes]. intros Hs [->|Hn]%elem_of_cons; [done|].
  cbn [sums] in Hs. destruct (isLeaf (Node v f l r)) eqn:E.
  - apply isLeaf_true in E as (? & ? & [= -> -> -> ->]). by apply elem_of_nil in Hn.
  - destruct Hs as (_ & ? & ?). apply elem_of_app in Hn as [?|?]; auto.
Qed.

Lemma proper_children n : proper n → children n = (if isLeaf n then 0 else 2).
Proof.
  intros [v f|v f l r Hl Hr]; [done|].
  rewrite (isLeaf_proper_child _ _ _ _ Hl). unfold children. simpl.
  by rewrite !proper_not_null.
Qed.

Lemma proper_single_leaf t : proper t → length (leaves t) = 1 → isLeaf t = true.
Proof.
  intros [v f|v f l r Hl Hr]; [done|].
  rewrite leaves_internal, length_app by by apply isLeaf_proper_child.
  apply proper_leaves in Hl, Hr.
  destruct (leaves l), (leaves r); simpl; try done; lia.
Qed.

Lemma leaves_isLeaf t : isLeaf t = true → leaves t = [get_val t].
Proof. by intros (v & f & ->)%isLeaf_true. Qed.

(** ** What a built tree looks like *)

Lemma built_tree `{Platform} (freqs : gmap ascii Z) t :
  buildHuffmanTree freqs = Ok t →
  proper t ∧ sums t ∧ NoDup (leaves t) ∧
  (∀ c, c ∈ leaves t ↔ is_Some (freqs !! c)) ∧
  length (leaves t) = size freqs ∧
  get_freq t = total_count freqs.
Proof.
  intros (_ & Hp & Hs & Hl & Hf)%buildHuffmanTree_spec.
  split_and!; try done.
  - rewrite Hl. apply NoDup_fst_map_to_list.
  - intros c. rewrite Hl, list_elem_of_fmap. split.
    + intros ([c' n] & -> & Hin%elem_of_map_to_list). by exists n.
    + intros [n Hn]. exists (c, n). split; [done|]. by apply elem_of_map_to_list.
  - by rewrite Hl, length_fmap, length_map_to_list.
Qed.

Lemma encodeText_loop_spec (codes : gmap ascii (list ascii)) input acc :
  (∃ bits, encodeText_loop input codes acc = Ok bits ∧
           ∀ c, c ∈ input → is_Some (codes !! c)) ∨
  (encodeText_loop input codes acc = Err OutOfRange ∧
   ∃ c, c ∈ input ∧ codes !! c = None).
Proof.
  revert acc. induction input as [|c input IH]; intros acc.
  - left. exists acc. split; [done|]. by intros c ?%elem_of_nil.
  - cbn [encodeText_loop]. destruct (codes !! c) as [w|] eqn:Ec.
    + destruct (IH (acc ++ w)) as [(bits & -> & Hin)|(-> & c' & Hc' & Hn)].
      * left. exists bits. split; [done|].
        intros c' [->|?]%elem_of_cons; [by rewrite Ec|auto].
      * right. split; [done|]. exists c'. split; [by right|done].
    + right. split; [done|]. exists c. split; [by left|done].
Qed.

(** * The claims *)

(** C9. The two implementations of the serializer agree: [serialize_tree]
    of phaseOne and [serializeHuffmanTree] of HuffmanCoder give the same
    string on every tree, and on every string [deserialize_tree] and
    [deserializeHuffmanTree] both return, with trees of the same shape
    and the same symbol at each leaf position. *)
Theorem serializers_agree :
  (∀ t, serialize_tree t = serializeHuffmanTree t) ∧
  (∀ s, ∃ t1 t2,
     deserialize_tree s = Ok t1 ∧ deserializeHuffmanTree s = Ok t2 ∧
     same_structure t1 t2 = true).
Proof.
  split; [apply serialize_tree_eq|]. intros s.
  destruct s as [|c s]; [by exists nullptr, nullptr|].
  unfold deserialize_tree, deserializeHuffmanTree.
  pose proof (deserializers_agree (S (length (c :: s))) (c :: s) 0) as Ha.
  destruct (deserializeHuffmanTreeHelper_returns (S (length (c :: s))) (c :: s) 0)
    as (t2 & j & E2 & _); [lia|].
  rewrite E2 in *.
  destruct (deserialize_tree_pos _ _ _) as [[t1 j1]|e]; [|done].
  destruct Ha as [Hs _]. by exists t1, t2.
Qed.

(** ** The deserializer, position by position *)

Lemma deserializeHuffmanTreeHelper_fuel fuel fuel' s i r :
  fuel ≤ fuel' →
  deserializeHuffmanTreeHelper fuel s i = Ok r →
  deserializeHuffmanTreeHelper fuel' s i = Ok r.
Proof.
  revert fuel' i r. induction fuel as [|fuel IH]; intros fuel' i r Hle; [done|].
  destruct fuel' as [|fuel']; [lia|].
  cbn [deserializeHuffmanTreeHelper].
  case_decide; [done|]. case_decide; [done|].
  intros ([l j1] & E1 & ([rt j2] & E2 & Hr)%bind_Ok_inv)%bind_Ok_inv.
  rewrite (IH fuel' _ _ ltac:(lia) E1), bind_Ok.
  by rewrite (IH fuel' _ _ ltac:(lia) E2), bind_Ok.
Qed.

Lemma deserializeHuffmanTreeHelper_parse_at fuel s i :
  length s - i < fuel →
  deserializeHuffmanTreeHelper fuel s i = Ok (parse_at s i).
Proof.
  intros Hf. unfold parse_at.
  destruct (deserializeHuffmanTreeHelper_returns (S (length s - i)) s i)
    as (t & j & E & _); [lia|].
  rewrite E. apply deserializeHuffmanTreeHelper_fuel with (S (length s - i));
    [lia|done].
Qed.

Lemma parse_at_end s i : length s ≤ i → parse_at s i = (nullptr, i).
Proof.
  intros Hi. unfold parse_at. cbn [deserializeHuffmanTreeHelper].
  by rewrite decide_True.
Qed.

Lemma parse_at_leaf s i :
  i < length s → char_at s i = "L" →
  parse_at s i = (Node (char_at s (S i)) 0 nullptr nullptr, S (S i)).
Proof.
  intros Hi HL. unfold parse_at. cbn [deserializeHuffmanTreeHelper].
  rewrite decide_False by lia. by rewrite decide_True.
Qed.

Lemma parse_at_index s i : i ≤ (parse_at s i).2.
Proof.
  pose proof (deserializeHuffmanTreeHelper_parse_at (S (length s - i)) s i) as E.
  destruct (parse_at s i) as [t j].
  apply deserializeHuffmanTreeHelper_index in E; [done|lia].
Qed.

Lemma parse_at_internal s i :
  i < length s → char_at s i ≠ "L" →
  parse_at s i
  = (Node "000" 0 (parse_at s (S i)).1 (parse_at s (parse_at s (S i)).2).1,
     (parse_at s (parse_at s (S i)).2).2).
Proof.
  intros Hi HL.
  pose proof (deserializeHuffmanTreeHelper_parse_at (S (length s - i)) s i) as E.
  cbn [deserializeHuffmanTreeHelper] in E.
  rewrite !decide_False in E by (done || lia).
  pose proof (parse_at_index s (S i)) as Hj.
  rewrite (deserializeHuffmanTreeHelper_parse_at _ s (S i)) in E by lia.
  destruct (parse_at s (S i)) as [l j] eqn:El. rewrite bind_Ok in E.
  simpl in Hj.
  rewrite (deserializeHuffmanTreeHelper_parse_at _ s j) in E by lia.
  simpl. destruct (parse_at s j) as [r k] eqn:Er. rewrite bind_Ok in E.
  specialize (E ltac:(lia)). by injection E as <-.
Qed.

Lemma deserializeHuffmanTree_parse_at s :
  deserializeHuffmanTree s
  = Ok (match s with [] => nullptr | _ => (parse_at s 0).1 end).
Proof.
  destruct s as [|c s]; [done|]. unfold deserializeHuffmanTree.
  rewrite deserializeHuffmanTreeHelper_parse_at by lia.
  by destruct (parse_at (c :: s) 0).
Qed.

(** C3, as the code has it.  [deserializeHuffmanTree] has no error to
    raise: it returns on every string.  The empty string gives the null
    tree, and any other string the node read from position 0, where
    reading from a position goes as follows, at every position of every
    string: at or past the end of the string it gives the null pointer,
    so that a subtree that is missing becomes a null child of the
    enclosing node; at the tag ['L'] it gives a leaf with the next
    character, which is the null character when the string ends there;
    at any other tag, ['I'] or not, it gives an internal node whose left
    child is read from the next position and whose right child is read
    from where the left child ended. *)
Theorem deserializeHuffmanTree_never_raises :
  (∀ s, returns (deserializeHuffmanTree s)) ∧
  deserializeHuffmanTree [] = Ok nullptr ∧
  (∀ c s, c ≠ "L" →
     deserializeHuffmanTree (c :: s) = deserializeHuffmanTree ("I" :: s)) ∧
  (∀ t, proper t →
     deserializeHuffmanTree ("I" :: serializeHuffmanTree t)
     = Ok (Node "000" 0 (blank t) nullptr)) ∧
  deserializeHuffmanTree ["I"] = Ok (Node "000" 0 nullptr nullptr) ∧
  deserializeHuffmanTree ["L"] = Ok (Node "000" 0 nullptr nullptr) ∧
  (∀ s, deserializeHuffmanTree s
        = Ok (match s with [] => nullptr | _ => (parse_at s 0).1 end)) ∧
  (∀ fuel s i, length s - i < fuel →
     deserializeHuffmanTreeHelper fuel s i = Ok (parse_at s i)) ∧
  (∀ s i, length s ≤ i → parse_at s i = (nullptr, i)) ∧
  (∀ s i, i < length s → char_at s i = "L" →
     parse_at s i = (Node (char_at s (S i)) 0 nullptr nullptr, S (S i))) ∧
  (∀ s i, i < length s → char_at s i ≠ "L" →
     parse_at s i
     = (Node "000" 0 (parse_at s (S i)).1 (parse_at s (parse_at s (S i)).2).1,
        (parse_at s (parse_at s (S i)).2).2)).
Proof.
  split_and!; try done.
  - apply deserializeHuffmanTree_returns.
  - apply deserializeHuffmanTree_other_tag.
  - apply deserializeHuffmanTree_cut_short.
  - apply deserializeHuffmanTree_parse_at.
  - apply deserializeHuffmanTreeHelper_parse_at.
  - apply parse_at_end.
  - apply parse_at_leaf.
  - apply parse_at_internal.
Qed.

Lemma deserializeHuffmanTree_never_raises_witness :
  "X" ≠ "L" ∧ proper (new_leaf "a" 0) ∧
  deserializeHuffmanTree (text "XLaLb") = deserializeHuffmanTree (text "ILaLb") ∧
  deserializeHuffmanTree (text "ILa")
  = Ok (Node "000" 0 (new_leaf "a" 0) nullptr) ∧
  3 < length (text "IILaXLb") ∧ char_at (text "IILaXLb") 4 ≠ "L" ∧
  parse_at (text "IILaXLb") 4
  = (Node "000" 0 (new_leaf "b" 0) nullptr, 7).
Proof.
  pose proof deserializeHuffmanTree_never_raises
    as (_ & _ & Htag & Hcut & _ & _ & _ & _ & _ & _ & Hint).
  assert ("X" ≠ "L") as Hx by done.
  assert (proper (new_leaf "a" 0)) as Ha by constructor.
  assert (4 < length (text "IILaXLb")) as H4 by (simpl; lia).
  assert (char_at (text "IILaXLb") 4 ≠ "L") as Htag4 by done.
  split_and!; [done|done|..|simpl; lia|exact Htag4|].
  - exact (Htag "X" (text "LaLb") Hx).
  - exact (Hcut (new_leaf "a" 0) Ha).
  - exact (Hint (text "IILaXLb") 4 H4 Htag4).
Defined.

(** C3 as stated fails: a string that ends in the middle of a tree, and a
    string with a tag that is neither ['L'] nor ['I'], are both turned
    into trees. *)
Lemma deserializeHuffmanTree_raises_counterexample :
  ¬ raises (deserializeHuffmanTree (text "ILa")) ∧
  ¬ raises (deserializeHuffmanTree (text "XLaLb")) ∧
  deserializeHuffmanTree (text "ILa")
  = Ok (Node "000" 0 (Node "a" 0 nullptr nullptr) nullptr) ∧
  deserializeHuffmanTree (text "XLaLb")
  = Ok (Node "000" 0 (Node "a" 0 nullptr nullptr) (Node "b" 0 nullptr nullptr)).
Proof.
  split_and!; [by intros [e He]|by intros [e He]|done|done].
Qed.



(** ** [decodeText] against a single leaf *)

Lemma is_bit_or_not text :
  Exists is_bit text ∨ Forall (λ c, ¬ is_bit c) text.
Proof.
  induction text as [|c text [IH|IH]]; [by right|left; by right|].
  destruct (decide (c = "0")) as [->|H0]; [left; left; by left|].
  destruct (decide (c = "1")) as [->|H1]; [left; left; by right|].
  right. constructor; [by intros [?|?]|done].
Qed.

Lemma decodeText_loop_leaf_other v f c s out flag :
  ¬ is_bit c →
  decodeText_loop (Node v f nullptr nullptr) (c :: s) out
    (Node v f nullptr nullptr) flag
  = decodeText_loop (Node v f nullptr nullptr) s (out ++ [v])
      (Node v f nullptr nullptr) true.
Proof.
  intros Hc. cbn [decodeText_loop].
  rewrite decide_False by (intros ->; apply Hc; by left).
  rewrite decide_False by (intros ->; apply Hc; by right). done.
Qed.

Lemma decodeText_loop_leaf_bit v f s out flag :
  Exists is_bit s →
  decodeText_loop (Node v f nullptr nullptr) s out
    (Node v f nullptr nullptr) flag = Err EncodingMismatch.
Proof.
  intros Hs. revert out flag.
  induction s as [|c s IH]; intros out flag; [by apply Exists_nil in Hs|].
  destruct (is_bit_or_not [c]) as [Hc|Hc].
  - apply Exists_cons in Hc as [Hc|Hc]; [|by apply Exists_nil in Hc].
    by apply decodeText_loop_leaf.
  - apply Forall_cons in Hc as [Hc _].
    rewrite decodeText_loop_leaf_other by done. apply IH.
    by apply Exists_cons in Hs as [?|?].
Qed.

Lemma decodeText_loop_leaf_no_bit v f s out :
  Forall (λ c, ¬ is_bit c) s →
  decodeText_loop (Node v f nullptr nullptr) s out
    (Node v f nullptr nullptr) true = Ok (out ++ replicate (length s) v).
Proof.
  intros Hs. revert out. induction Hs as [|c s Hc _ IH]; intros out.
  - simpl. by rewrite app_nil_r.
  - rewrite decodeText_loop_leaf_other, IH by done.
    simpl. by rewrite <-app_assoc.
Qed.

(** C6, as the code has it.  When the tree read from the file is a single
    leaf, [decoder] turns a text of ['0'] characters into as many copies
    of the leaf's symbol, and on a text that is not all ['0'] it raises
    "Encoding did not match Huffman tree" exactly when the text holds a
    ['0'] or a ['1'] somewhere: every string of ['0'] and ['1'] with a
    ['1'] in it raises.  [decodeText] has no branch for other characters;
    a text made of such characters only gives one copy of the symbol for
    each of them. *)
Theorem decoder_single_leaf serialized_tree root encoded_text :
  deserializeHuffmanTree serialized_tree = Ok root →
  isLeaf root = true →
  (Forall (λ c, c = "0") encoded_text →
   decoder serialized_tree encoded_text
   = Ok (replicate (length encoded_text) (get_val root))) ∧
  (Forall is_bit encoded_text → ¬ Forall (λ c, c = "0") encoded_text →
   decoder serialized_tree encoded_text = Err EncodingMismatch) ∧
  (raises (decoder serialized_tree encoded_text) ↔
   ¬ Forall (λ c, c = "0") encoded_text ∧ Exists is_bit encoded_text) ∧
  (raises (decoder serialized_tree encoded_text) →
   decoder serialized_tree encoded_text = Err EncodingMismatch) ∧
  (Forall (λ c, ¬ is_bit c) encoded_text →
   decoder serialized_tree encoded_text
   = Ok (replicate (length encoded_text) (get_val root))).
Proof.
  intros Hd Hleaf. unfold decoder. rewrite Hd, bind_Ok.
  apply isLeaf_true in Hleaf as (v & f & ->). unfold decoder_text.
  cbn [is_null isLeaf get_val].
  destruct (allZeros_loop encoded_text true) eqn:E.
  - apply allZeros_loop_true in E. split_and!; try done.
    + split; [by intros [e He]|]. by intros [? _].
    + by intros [e He].
  - assert (¬ Forall (λ c, c = "0") encoded_text) as Hz.
    { intros Hz%allZeros_loop_true. by rewrite Hz in E. }
    unfold decodeText. cbn [is_null].
    destruct (is_bit_or_not encoded_text) as [Hb|Hb].
    + rewrite decodeText_loop_leaf_bit by done. split_and!; try done.
      * split; [done|]. intros _. by exists EncodingMismatch.
      * intros Hn. apply Exists_exists in Hb as (c & Hc & Hbit).
        rewrite Forall_forall in Hn. by destruct (Hn c Hc).
    + rewrite decodeText_loop_leaf_no_bit by done. split_and!; try done.
      * intros Hbits. destruct encoded_text as [|c s]; [by destruct Hz|].
        apply Forall_cons in Hbits as [Hc _], Hb as [Hn _]. by destruct Hn.
      * split; [by intros [e He]|]. intros [_ He].
        apply Exists_exists in He as (c & Hc & Hbit).
        rewrite Forall_forall in Hb. by destruct (Hb c Hc).
      * by intros [e He].
Qed.

Lemma decoder_single_leaf_witness :
  deserializeHuffmanTree (text "La") = Ok (new_leaf "a" 0) ∧
  isLeaf (new_leaf "a" 0) = true ∧
  Forall is_bit (text "000") ∧ Forall is_bit (text "010") ∧
  decoder (text "La") (text "000") = Ok (text "aaa") ∧
  decoder (text "La") (text "010") = Err EncodingMismatch.
Proof.
  assert (Forall is_bit (text "000")) as H0
    by (repeat constructor; by left).
  assert (Forall is_bit (text "010")) as H1
    by (repeat constructor; (by left) || (by right)).
  split_and!; [done|done|done|done|..].
  - destruct (decoder_single_leaf (text "La") (new_leaf "a" 0) (text "000")
                eq_refl eq_refl) as (Hzeros & _).
    apply Hzeros. by repeat constructor.
  - destruct (decoder_single_leaf (text "La") (new_leaf "a" 0) (text "010")
                eq_refl eq_refl) as (_ & Hone & _).
    apply Hone; [exact H1|].
    intros [_ [? _]%Forall_cons]%Forall_cons. done.
Defined.

(** C6 as stated fails: a text holding a character other than ['0'] does
    not always raise.  On ["22"] the all-zero test fails, [decodeText]
    keeps the cursor on the leaf at each character, and two copies of the
    symbol are returned. *)
Lemma decoder_single_leaf_counterexample :
  deserializeHuffmanTree (text "La") = Ok (new_leaf "a" 0) ∧
  isLeaf (new_leaf "a" 0) = true ∧
  ¬ Forall (λ c, c = "0") (text "22") ∧
  decoder (text "La") (text "22") = Ok (text "aa") ∧
  ¬ raises (decoder (text "La") (text "22")).
Proof.
  split_and!; [done|done| |done|by intros [e He]].
  by intros [? _]%Forall_cons.
Qed.

(** C10, as the code has it.  With exactly one entry in the table
    [encodeText] never looks anything up and never raises: it returns one
    ['0'] per input character, whatever the characters are.  In every
    other case, a table with no entry or with two or more, it raises
    [std::out_of_range] exactly when some input character has no entry. *)
Theorem encodeText_single_entry (codes : gmap ascii (list ascii)) input :
  (size codes = 1 →
   encodeText input codes = Ok (replicate (length input) "0")) ∧
  (raises (encodeText input codes) ↔
   size codes ≠ 1 ∧ ∃ c, c ∈ input ∧ codes !! c = None) ∧
  (raises (encodeText input codes) → encodeText input codes = Err OutOfRange).
Proof.
  unfold encodeText. case_decide as Hs.
  - split_and!; [done|..].
    + split; [by intros [e He]|]. by intros [? _].
    + by intros [e He].
  - destruct (encodeText_loop_spec codes input [])
      as [(bits & -> & Hin)|(-> & c & Hc & Hn)].
    + split_and!; [done|..].
      * split; [by intros [e He]|]. intros (_ & c & Hc & Hn).
        apply Hin in Hc as [w Hw]. by rewrite Hn in Hw.
      * by intros [e He].
    + split_and!; [done|..]; [|done].
      split; [|by exists OutOfRange]. intros _. split; [done|]. by exists c.
Qed.

Lemma encodeText_single_entry_witness :
  size ({["a" := []]} : gmap ascii (list ascii)) = 1 ∧
  encodeText (text "abca") {["a" := []]} = Ok (text "0000").
Proof.
  assert (size ({["a" := []]} : gmap ascii (list ascii)) = 1) as Hs
    by apply map_size_singleton.
  split; [done|].
  exact (proj1 (encodeText_single_entry {["a" := []]} (text "abca")) Hs).
Defined.

(** C10 as stated fails in its last part: the lookup also fails with a
    table that has no entry at all, not only with two or more. *)
Lemma encodeText_absent_symbol_counterexample :
  encodeText (text "a") ∅ = Err OutOfRange ∧
  ¬ (2 ≤ size (∅ : gmap ascii (list ascii))).
Proof. split; [done|]. rewrite map_size_empty. lia. Qed.

(** ** Encoding and decoding against one tree *)

Lemma proper_two_leaves t :
  proper t → isLeaf t = false → 2 ≤ length (leaves t).
Proof.
  intros [v f|v f l r Hl Hr] E; [done|].
  rewrite leaves_internal, length_app by done.
  apply proper_leaves in Hl, Hr.
  destruct (leaves l), (leaves r); simpl; try done; lia.
Qed.

Lemma encode_decode_tree t b :
  proper t → NoDup (leaves t) → (∀ c, c ∈ b → c ∈ leaves t) →
  ∃ bits,
    encodeText b (generateCharCodes t ∅ []) = Ok bits ∧
    decoder_text t bits = Ok b ∧
    (isLeaf t = false → decodeText bits t = Ok b).
Proof.
  intros Ht Hnd Hb. unfold encodeText, decoder_text, decodeText.
  rewrite (proper_not_null t Ht), generateCharCodes_size by done.
  destruct (isLeaf t) eqn:E.
  - rewrite (leaves_isLeaf t E) in *. simpl length.
    rewrite decide_True by done.
    exists (replicate (length b) "0"). split; [done|].
    rewrite allZeros_loop_replicate, length_replicate. split; [|done].
    f_equal. apply replicate_as_elem_of. split; [done|].
    intros c Hc%Hb. by apply list_elem_of_singleton in Hc.
  - pose proof (proper_two_leaves t Ht E).
    rewrite decide_False by lia.
    destruct (encode_decode_loop t (generateCharCodes t ∅ []) b) with (acc := @nil ascii)
      as (bits & Hen & Hde).
    { intros c Hc%Hb. destruct (leaves_leaf_at t c Ht Hc) as [p Hp].
      exists p. split_and!; [by apply generateCharCodes_spec|done|].
      intros ->. apply leaf_at_nil in Hp as [Hp _]. by rewrite Hp in E. }
    exists bits. by rewrite Hen, Hde.
Qed.

(** ** A table with one entry *)

Lemma buildHuffmanTree_singleton `{Platform} c n :
  buildHuffmanTree {[c := n]} = Ok (new_leaf c n).
Proof.
  unfold buildHuffmanTree. cbn zeta.
  pose proof (initial_queue {[c := n]}) as Hq.
  rewrite map_to_list_singleton in Hq. simpl in Hq.
  apply Permutation_singleton_r in Hq.
  set (pq := push_leaves _ _) in *.
  assert (pq_size pq = 1) as Hs by by rewrite pq_size_contents, Hq.
  rewrite Hs. cbn [merge_loop]. rewrite Hs, decide_False by lia.
  rewrite bind_Ok. destruct (pq_top_pop pq) as (x & Ex & Hp).
  { by rewrite Hq. }
  unfold top. rewrite Ex. rewrite Hq in Hp.
  apply Permutation_singleton_l in Hp. by injection Hp as <- _.
Qed.

(** ** The claims about built trees *)

(** C8. In every tree that [buildHuffmanTree] returns from a non-empty
    table, a node is a leaf iff it has no child, and an internal node has
    two children and the sum of their frequencies as its frequency.  A
    table with one symbol gives a single leaf, without any merge, and the
    table a:3, b:2, c:1 gives a root of frequency 6 with two children. *)
Theorem buildHuffmanTree_shape `{Platform} :
  (∀ freqs t, freqs ≠ ∅ → buildHuffmanTree freqs = Ok t →
     (∀ n, n ∈ nodes t →
        (isLeaf n = true ↔ children n = 0) ∧
        (isLeaf n = false →
           children n = 2 ∧
           get_freq n = (get_freq (get_left n) + get_freq (get_right n))%Z)) ∧
     (size freqs = 1 → isLeaf t = true ∧ nodes t = [t])) ∧
  (∀ c n, buildHuffmanTree {[c := n]} = Ok (new_leaf c n)) ∧
  (∃ t, buildHuffmanTree abc_frequencies = Ok t ∧
        get_freq t = 6%Z ∧ children t = 2).
Proof.
  split_and!.
  - intros freqs t _ (Hp & Hs & Hnd & Hdom & Hlen & Hf)%built_tree. split.
    + intros n Hn. pose proof (proper_nodes t n Hp Hn) as Hpn.
      pose proof (sums_nodes t n Hs Hn) as Hsn.
      rewrite (proper_children n Hpn). destruct (isLeaf n) eqn:E.
      * done.
      * split; [done|]. intros _. split; [done|].
        destruct n as [|v f l r]; [done|]. cbn [sums] in Hsn.
        rewrite E in Hsn. by destruct Hsn.
    + intros H1. rewrite <-Hlen in H1.
      apply (proper_single_leaf t Hp) in H1 as Hleaf. split; [done|].
      by apply isLeaf_true in Hleaf as (v & f & ->).
  - apply buildHuffmanTree_singleton.
  - destruct (buildHuffmanTree_returns abc_frequencies) as [t Ht]; [done|..].
    { unfold abc_frequencies. repeat apply map_Forall_insert_2; done. }
    { by vm_compute. }
    exists t. split; [done|].
    apply built_tree in Ht as (Hp & Hs & Hnd & Hdom & Hlen & Hf).
    split; [rewrite Hf; by vm_compute|].
    rewrite (proper_children t Hp).
    destruct (isLeaf t) eqn:E; [|done].
    rewrite (leaves_isLeaf t E) in Hlen. by vm_compute in Hlen.
Qed.

Lemma buildHuffmanTree_shape_witness :
  let t := Node "000" 6 (Node "000" 3 (new_leaf "c" 1) (new_leaf "b" 2))
             (new_leaf "a" 3) in
  abc_frequencies ≠ ∅ ∧
  @buildHuffmanTree sorted_list_platform abc_frequencies = Ok t ∧
  (isLeaf t = false →
   children t = 2 ∧
   get_freq t = (get_freq (get_left t) + get_freq (get_right t))%Z).
Proof.
  intros t.
  assert (abc_frequencies ≠ ∅) as Hne by done.
  assert (@buildHuffmanTree sorted_list_platform abc_frequencies = Ok t) as Hb
    by by vm_compute.
  split_and!; [done|done|].
  assert (t ∈ nodes t) as Hin by by left.
  exact (proj2 (proj1 (proj1 (@buildHuffmanTree_shape sorted_list_platform)
                         abc_frequencies t Hne Hb) t Hin)).
Defined.

(** C5. For a table with at least two symbols, the code table made from
    the built tree gives every symbol of the table a non-empty code of
    ['0'] and ['1'], which is the path to its leaf (['0'] left, ['1']
    right), and no symbol's code is a prefix of another symbol's code. *)
Theorem codes_prefix_free `{Platform} (freqs : gmap ascii Z) t :
  2 ≤ size freqs → buildHuffmanTree freqs = Ok t →
  let codes := generateCharCodes t ∅ [] in
  (∀ c, is_Some (freqs !! c) →
     ∃ w, codes !! c = Some w ∧ w ≠ [] ∧ Forall is_bit w ∧ leaf_at t w c) ∧
  (∀ c1 c2 w1 w2, c1 ≠ c2 →
     codes !! c1 = Some w1 → codes !! c2 = Some w2 → ¬ w1 `prefix_of` w2).
Proof.
  intros H2 (Hp & Hs & Hnd & Hdom & Hlen & Hf)%built_tree codes. split.
  - intros c Hc%Hdom. destruct (leaves_leaf_at t c Hp Hc) as [w Hw].
    exists w. split_and!; [by apply generateCharCodes_spec|..|done].
    + intros ->. apply leaf_at_nil in Hw as [Hw _].
      rewrite (leaves_isLeaf t Hw) in Hlen. simpl in Hlen. lia.
    + by apply leaf_at_bits in Hw.
  - intros c1 c2 w1 w2 Hne H1%generateCharCodes_spec H2'%generateCharCodes_spec;
      [|done..].
    intros [q ->]. by destruct (leaf_at_prefix t w1 q c1 c2 H1 H2').
Qed.

Lemma codes_prefix_free_witness :
  let t := Node "000" 6 (Node "000" 3 (new_leaf "c" 1) (new_leaf "b" 2))
             (new_leaf "a" 3) in
  2 ≤ size abc_frequencies ∧
  @buildHuffmanTree sorted_list_platform abc_frequencies = Ok t ∧
  (∀ c1 c2 w1 w2, c1 ≠ c2 →
     generateCharCodes t ∅ [] !! c1 = Some w1 →
     generateCharCodes t ∅ [] !! c2 = Some w2 → ¬ w1 `prefix_of` w2).
Proof.
  intros t.
  assert (2 ≤ size abc_frequencies) as H2 by (vm_compute; lia).
  assert (@buildHuffmanTree sorted_list_platform abc_frequencies = Ok t) as Hb
    by by vm_compute.
  split_and!; [done|done|].
  exact (proj2 (@codes_prefix_free sorted_list_platform abc_frequencies t H2 Hb)).
Defined.

(** C2. A tree built from a non-empty table is read back from its
    serialization with the same shape and the same symbol at each leaf
    position.  The serialization is the preorder grammar: nothing for the
    null tree, ['L'] and the symbol for a leaf, ['I'] and then the left
    and the right subtree for an internal node. *)
Theorem serialization_round_trip `{Platform} (freqs : gmap ascii Z) t :
  freqs ≠ ∅ → buildHuffmanTree freqs = Ok t →
  (∃ t', deserializeHuffmanTree (serializeHuffmanTree t) = Ok t' ∧
         same_structure t t' = true) ∧
  serializeHuffmanTree nullptr = [] ∧
  (∀ n, isLeaf n = true → serializeHuffmanTree n = ["L"; get_val n]) ∧
  (∀ n, is_null n = false → isLeaf n = false →
     serializeHuffmanTree n
     = "I" :: serializeHuffmanTree (get_left n)
           ++ serializeHuffmanTree (get_right n)).
Proof.
  intros _ (Hp & _)%built_tree. split_and!.
  - exists (blank t). split; [by apply deserialize_serialize|].
    apply same_structure_blank.
  - done.
  - by intros n (v & f & ->)%isLeaf_true.
  - intros [|v f l r] Hn E; [done|]. cbn [serializeHuffmanTree]. by rewrite E.
Qed.

Lemma serialization_round_trip_witness :
  let t := Node "000" 6 (Node "000" 3 (new_leaf "c" 1) (new_leaf "b" 2))
             (new_leaf "a" 3) in
  abc_frequencies ≠ ∅ ∧
  @buildHuffmanTree sorted_list_platform abc_frequencies = Ok t ∧
  serializeHuffmanTree t = text "IILcLbLa" ∧
  ∃ t', deserializeHuffmanTree (serializeHuffmanTree t) = Ok t' ∧
        same_structure t t' = true.
Proof.
  intros t.
  assert (abc_frequencies ≠ ∅) as Hne by done.
  assert (@buildHuffmanTree sorted_list_platform abc_frequencies = Ok t) as Hb
    by by vm_compute.
  split_and!; [done|done|done|].
  exact (proj1 (@serialization_round_trip sorted_list_platform
                  abc_frequencies t Hne Hb)).
Defined.

(** ** An input with a single symbol *)

Lemma countCharFrequencies_single c text :
  text ≠ [] → (∀ c', c' ∈ text → c' = c) →
  (Z.of_nat (length text) ≤ INT_MAX)%Z →
  countCharFrequencies text = Ok {[c := Z.of_nat (length text)]}.
Proof.
  intros Hne Hall Hlen.
  destruct (countCharFrequencies_spec text Hlen) as (freqs & -> & _ & Htot & Hdom).
  f_equal. destruct (proj2 (Hdom c)) as [x Hx].
  { destruct text as [|c' text]; [done|]. rewrite (Hall c'); by left. }
  assert (freqs = {[c := x]}) as ->.
  { apply map_eq. intros c'. destruct (decide (c' = c)) as [->|Hc'].
    - by rewrite lookup_singleton_eq.
    - rewrite lookup_singleton_ne by done.
      apply eq_None_not_Some. intros Hs%Hdom. by apply Hall in Hs. }
  unfold total_count in Htot. rewrite map_to_list_singleton in Htot.
  simpl in Htot. f_equal. lia.
Qed.

Lemma encoder_single_symbol `{Platform} c n :
  0 < n → (Z.of_nat n ≤ INT_MAX)%Z →
  encoder (replicate n c) = Ok (Some (["L"; c], replicate n "0")).
Proof.
  intros Hn Hmax. unfold encoder.
  rewrite (countCharFrequencies_single c).
  - destruct n as [|n]; [lia|]. cbn [replicate].
    rewrite bind_Ok, buildHuffmanTree_singleton, bind_Ok. cbn zeta.
    unfold encodeText. cbn [generateCharCodes new_leaf isLeaf].
    rewrite insert_empty, map_size_singleton, decide_True by done.
    rewrite bind_Ok. cbn [length]. by rewrite length_replicate.
  - destruct n; [lia|done].
  - by intros c' [-> _]%elem_of_replicate.
  - by rewrite length_replicate.
Qed.

Lemma decoder_single_symbol c n :
  decoder ["L"; c] (replicate n "0") = Ok (replicate n c).
Proof.
  unfold decoder. change (deserializeHuffmanTree ["L"; c]) with (Ok (Node c 0 nullptr nullptr)).
  rewrite bind_Ok. unfold decoder_text. simpl.
  by rewrite allZeros_loop_replicate, length_replicate.
Qed.

(** C7. With exactly one entry in the code table, [encodeText] writes one
    ['0'] for each input character, so the lone symbol has the code ['0']
    and the encoded string is as long as the input.  An input that
    repeats one symbol leads to such a table, and ["aaaa"] is encoded as
    ["0000"], which [decoder] turns back into ["aaaa"]. *)
Theorem single_symbol_encoding `{Platform} (codes : gmap ascii (list ascii)) input :
  size codes = 1 →
  (∃ bits, encodeText input codes = Ok bits ∧
           length bits = length input ∧ Forall (λ b, b = "0") bits) ∧
  (∀ c, encodeText [c] codes = Ok ["0"]) ∧
  (∀ c n, 0 < n → (Z.of_nat n ≤ INT_MAX)%Z →
     encoder (replicate n c) = Ok (Some (["L"; c], replicate n "0")) ∧
     decoder ["L"; c] (replicate n "0") = Ok (replicate n c)) ∧
  encoder (text "aaaa") = Ok (Some (text "La", text "0000")) ∧
  decoder (text "La") (text "0000") = Ok (text "aaaa").
Proof.
  intros Hs. unfold encodeText. rewrite !decide_True by done. split_and!.
  - exists (replicate (length input) "0").
    split_and!; [done|by rewrite length_replicate|by apply Forall_replicate].
  - intros c. by rewrite decide_True by done.
  - intros c n Hn Hmax. split;
      [by apply encoder_single_symbol|apply decoder_single_symbol].
  - apply (encoder_single_symbol "a" 4); [lia|done].
  - apply (decoder_single_symbol "a" 4).
Qed.

Lemma single_symbol_encoding_witness :
  size ({["a" := []]} : gmap ascii (list ascii)) = 1 ∧
  @encoder sorted_list_platform (text "aaaa")
  = Ok (Some (text "La", text "0000")) ∧
  decoder (text "La") (text "0000") = Ok (text "aaaa").
Proof.
  assert (size ({["a" := []]} : gmap ascii (list ascii)) = 1) as Hs
    by apply map_size_singleton.
  pose proof (@single_symbol_encoding sorted_list_platform
                {["a" := []]} (text "aaaa") Hs) as (_ & _ & _ & Hen & Hde).
  by split_and!.
Defined.

(** ** The round trip *)

Lemma NoDup_all_equal (l : list ascii) :
  NoDup l → (∀ x y, x ∈ l → y ∈ l → x = y) → length l ≤ 1.
Proof.
  intros Hnd Heq. destruct l as [|x [|y l]]; simpl; [lia|lia|].
  apply NoDup_cons in Hnd as [Hx _]. destruct Hx.
  rewrite (Heq x y); [by left|by left|by right; left].
Qed.

(** C1, as the code has it.  For a non-empty input of at most [INT_MAX]
    bytes the frequency table, the tree and the encoding are all
    produced, and the choice made in [decoder] between the single-leaf
    case and [decodeText] gives the input back.  [decodeText] itself
    gives the input back when the input has two different bytes; when it
    repeats a single byte, [decodeText] raises the mismatch error. *)
Theorem encode_decode_round_trip `{Platform} b :
  b ≠ [] → (Z.of_nat (length b) ≤ INT_MAX)%Z →
  ∃ freqs root bits,
    countCharFrequencies b = Ok freqs ∧
    buildHuffmanTree freqs = Ok root ∧
    encodeText b (generateCharCodes root ∅ []) = Ok bits ∧
    decoder_text root bits = Ok b ∧
    ((∃ c1 c2, c1 ∈ b ∧ c2 ∈ b ∧ c1 ≠ c2) →
       decodeText bits root = Ok b ∧ round_trip b = Ok b) ∧
    ((∀ c1 c2, c1 ∈ b → c2 ∈ b → c1 = c2) →
       decodeText bits root = Err EncodingMismatch ∧
       round_trip b = Err EncodingMismatch).
Proof.
  intros Hne Hlen.
  destruct (countCharFrequencies_spec b Hlen) as (freqs & Hf & Hpos & Htot & Hdom).
  destruct (buildHuffmanTree_returns freqs) as [root Hroot]; [|done|..].
  { intros ->. destruct b as [|c b]; [done|].
    destruct (proj2 (Hdom c)) as [x Hx]; [by left|done]. }
  { fold (total_count freqs). by rewrite Htot. }
  pose proof Hroot as (Hp & Hs & Hnd & Hl & _)%built_tree.
  destruct (encode_decode_tree root b Hp Hnd) as (bits & Hen & Hde & Hdt).
  { intros c Hc. by apply Hl, Hdom. }
  exists freqs, root, bits. split_and!; try done.
  - intros (c1 & c2 & H1 & H2 & H12).
    assert (isLeaf root = false) as E.
    { destruct (isLeaf root) eqn:E; [|done]. destruct H12.
      apply Hdom, Hl in H1, H2. rewrite (leaves_isLeaf root E) in H1, H2.
      apply list_elem_of_singleton in H1, H2. congruence. }
    split; [by apply Hdt|].
    unfold round_trip. rewrite Hf, bind_Ok, Hroot, bind_Ok, Hen, bind_Ok.
    by apply Hdt.
  - intros Hall.
    assert (isLeaf root = true) as E.
    { apply proper_single_leaf; [done|].
      pose proof (proper_leaves root Hp).
      assert (length (leaves root) ≤ 1).
      { apply NoDup_all_equal; [done|].
        intros x y Hx%Hl%Hdom Hy%Hl%Hdom. by apply Hall. }
      destruct (leaves root); [done|simpl in *; lia]. }
    assert (decodeText bits root = Err EncodingMismatch) as Hd.
    { apply isLeaf_true in E as (v & f & ->).
      unfold encodeText in Hen. cbn [generateCharCodes isLeaf] in Hen.
      rewrite insert_empty, map_size_singleton, decide_True in Hen by done.
      injection Hen as <-. destruct b as [|c b]; [done|].
      unfold decodeText. cbn [is_null length replicate].
      apply decodeText_loop_leaf. by left. }
    split; [done|].
    unfold round_trip. by rewrite Hf, bind_Ok, Hroot, bind_Ok, Hen, bind_Ok.
Qed.

Lemma encode_decode_round_trip_witness :
  text "abracadabra" ≠ [] ∧
  (Z.of_nat (length (text "abracadabra")) ≤ INT_MAX)%Z ∧
  @round_trip sorted_list_platform (text "abracadabra")
  = Ok (text "abracadabra").
Proof.
  assert (text "abracadabra" ≠ []) as Hne by done.
  assert (Z.of_nat (length (text "abracadabra")) ≤ INT_MAX)%Z as Hlen by done.
  split_and!; [done|done|].
  destruct (@encode_decode_round_trip sorted_list_platform
              (text "abracadabra") Hne Hlen)
    as (freqs & root & bits & _ & _ & _ & _ & H2 & _).
  apply H2. exists "a", "b". split_and!; [|by right; left|done].
  by left.
Defined.

(** C1 as stated fails.  On ["aaaa"] the tree is a single leaf and the
    encoding is ["0000"], on which [decodeText] raises at the first bit;
    on the empty input the queue is empty and [top()] is undefined. *)
Lemma round_trip_counterexample :
  @round_trip sorted_list_platform (text "aaaa") = Err EncodingMismatch ∧
  @round_trip sorted_list_platform [] = Err Undefined.
Proof. split; by vm_compute. Qed.

(** ** From [encoder] to [decoder] *)

Lemma get_left_blank n : get_left (blank n) = blank (get_left n).
Proof.
  destruct n as [|v f l r]; [done|]. cbn [blank].
  destruct (isLeaf (Node v f l r)) eqn:E; [|done].
  by apply isLeaf_true in E as (? & ? & [= -> -> -> ->]).
Qed.

Lemma get_right_blank n : get_right (blank n) = blank (get_right n).
Proof.
  destruct n as [|v f l r]; [done|]. cbn [blank].
  destruct (isLeaf (Node v f l r)) eqn:E; [|done].
  by apply isLeaf_true in E as (? & ? & [= -> -> -> ->]).
Qed.

Lemma get_val_blank n : isLeaf n = true → get_val (blank n) = get_val n.
Proof. by intros (v & f & ->)%isLeaf_true. Qed.

Lemma decodeText_loop_blank root bits out curr flag :
  decodeText_loop (blank root) bits out (blank curr) flag
  = decodeText_loop root bits out curr flag.
Proof.
  revert out curr flag. induction bits as [|bit bits IH]; intros out curr flag;
    [done|].
  cbn [decodeText_loop]. rewrite get_left_blank, get_right_blank.
  repeat case_decide.
  - rewrite is_null_blank, isLeaf_blank. destruct (is_null _); [done|].
    destruct (isLeaf (get_left curr)) eqn:E; [|apply IH].
    rewrite get_val_blank by done. apply IH.
  - rewrite is_null_blank, isLeaf_blank. destruct (is_null _); [done|].
    destruct (isLeaf (get_right curr)) eqn:E; [|apply IH].
    rewrite get_val_blank by done. apply IH.
  - rewrite is_null_blank, isLeaf_blank. destruct (is_null _); [done|].
    destruct (isLeaf curr) eqn:E; [|apply IH].
    rewrite get_val_blank by done. apply IH.
Qed.

Lemma decoder_text_blank root bits :
  decoder_text (blank root) bits = decoder_text root bits.
Proof.
  unfold decoder_text, decodeText. rewrite is_null_blank, isLeaf_blank.
  destruct (is_null root); [done|].
  rewrite decodeText_loop_blank.
  destruct (isLeaf root) eqn:E; [|done]. by rewrite get_val_blank.
Qed.

(** X8. What [zap] writes, [unzap] reads back: for a non-empty input of
    at most [INT_MAX] bytes [encoder] hands a pair to the writer, and
    [decoder] on that pair returns the input. *)
Corollary encoder_decoder `{Platform} b :
  b ≠ [] → (Z.of_nat (length b) ≤ INT_MAX)%Z →
  ∃ serialized_tree encoded_text,
    encoder b = Ok (Some (serialized_tree, encoded_text)) ∧
    decoder serialized_tree encoded_text = Ok b.
Proof.
  intros Hne Hlen.
  destruct (countCharFrequencies_spec b Hlen) as (freqs & Hf & Hpos & Htot & Hdom).
  destruct (buildHuffmanTree_returns freqs) as [root Hroot]; [|done|..].
  { intros ->. destruct b as [|c b]; [done|].
    destruct (proj2 (Hdom c)) as [x Hx]; [by left|done]. }
  { fold (total_count freqs). by rewrite Htot. }
  pose proof Hroot as (Hp & Hs & Hnd & Hl & _)%built_tree.
  destruct (encode_decode_tree root b Hp Hnd) as (bits & Hen & Hde & _).
  { intros c Hc. by apply Hl, Hdom. }
  exists (serializeHuffmanTree root), bits. split.
  - unfold encoder. destruct b as [|c b]; [done|].
    by rewrite Hf, bind_Ok, Hroot, bind_Ok, Hen.
  - unfold decoder. rewrite deserialize_serialize by done.
    by rewrite bind_Ok, decoder_text_blank.
Qed.

(** * Further properties of the code *)

(** ** countCharFrequencies counts *)

Lemma occurrences_cons c x input :
  occurrences c (x :: input)
  = (if decide (x = c) then 1 else 0) + occurrences c input.
Proof. unfold occurrences. rewrite filter_cons. by case_decide. Qed.

Lemma countCharFrequencies_loop_Ok input (m freqs : gmap ascii Z) :
  countCharFrequencies_loop input m = Ok freqs →
  ∀ c,
    default 0%Z (freqs !! c)
    = (default 0 (m !! c) + Z.of_nat (occurrences c input))%Z ∧
    (is_Some (freqs !! c) ↔ is_Some (m !! c) ∨ c ∈ input).
Proof.
  revert m. induction input as [|x input IH]; intros m.
  - intros [= <-] c. split; [unfold occurrences; simpl; lia|].
    split; [auto|]. by intros [?|?%elem_of_nil].
  - cbn [countCharFrequencies_loop].
    intros (n & ->%int_add_Ok & Hloop)%bind_Ok_inv c.
    destruct (IH _ Hloop c) as [Hc Hd]. rewrite Hc, Hd, occurrences_cons.
    rewrite lookup_insert_is_Some, elem_of_cons.
    destruct (decide (x = c)) as [->|Hne].
    + rewrite lookup_insert_eq. simpl. split; [lia|]. by intuition.
    + rewrite lookup_insert_ne by done. split; [simpl; lia|].
      split.
      * intros [[?|[_ ?]]|?]; [done|by left|by right; right].
      * intros [?|[->|?]]; [by left; right|done|by right].
Qed.

(** X1. On a text of at most [INT_MAX] characters [countCharFrequencies]
    returns the table that gives every character of the text the number
    of times it occurs there, and holds no other character. *)
Theorem countCharFrequencies_counts input :
  (Z.of_nat (length input) ≤ INT_MAX)%Z →
  ∃ freqs,
    countCharFrequencies input = Ok freqs ∧
    ∀ c, freqs !! c
         = if decide (c ∈ input) then Some (Z.of_nat (occurrences c input))
           else None.
Proof.
  intros Hlen.
  destruct (countCharFrequencies_spec input Hlen) as (freqs & Hf & _).
  exists freqs. split; [done|]. intros c.
  destruct (countCharFrequencies_loop_Ok input ∅ freqs Hf c) as [Hc Hd].
  rewrite lookup_empty in Hc, Hd. simpl in Hc.
  case_decide as Hin.
  - destruct (proj2 Hd) as [n Hn]; [by right|]. rewrite Hn in Hc |- *.
    simpl in Hc. f_equal. lia.
  - apply eq_None_not_Some. intros Hs. apply Hd in Hs as [Hs|Hs]; [|done].
    by apply is_Some_None in Hs.
Qed.

Lemma countCharFrequencies_counts_witness :
  (Z.of_nat (length (text "aabbccc")) ≤ INT_MAX)%Z ∧
  ∃ freqs, countCharFrequencies (text "aabbccc") = Ok freqs ∧
           freqs !! "c" = Some 3%Z ∧ freqs !! "d" = None.
Proof.
  assert (Z.of_nat (length (text "aabbccc")) ≤ INT_MAX)%Z as Hlen by done.
  split; [done|].
  destruct (countCharFrequencies_counts (text "aabbccc") Hlen)
    as (freqs & Hf & Hc).
  exists freqs. split; [done|]. split.
  - by rewrite (Hc "c").
  - by rewrite (Hc "d").
Defined.

(** ** buildHuffmanTree: when it returns, and what is in the tree *)

Lemma buildHuffmanTree_empty `{Platform} :
  buildHuffmanTree ∅ = Err Undefined.
Proof.
  unfold buildHuffmanTree. cbn zeta.
  pose proof (initial_queue ∅) as Hq.
  rewrite map_to_list_empty in Hq. apply Permutation_nil_r in Hq.
  set (pq := push_leaves _ _) in *.
  assert (pq_size pq = 0) as Hs by by rewrite pq_size_contents, Hq.
  rewrite Hs. cbn [merge_loop]. rewrite Hs, decide_False by lia.
  rewrite bind_Ok. unfold top. by rewrite (pq_top_empty pq Hq).
Qed.

(** X2. On a table of non-negative counts that add up to at most
    [INT_MAX], [buildHuffmanTree] returns a tree exactly when the table
    is not empty; on the empty table it calls [top()] on an empty queue,
    whatever the iteration order and the queue order. *)
Theorem buildHuffmanTree_returns_iff `{Platform} (freqs : gmap ascii Z) :
  map_Forall (λ _ n, 0 ≤ n)%Z freqs →
  (total_count freqs ≤ INT_MAX)%Z →
  (returns (buildHuffmanTree freqs) ↔ freqs ≠ ∅) ∧
  (freqs = ∅ → buildHuffmanTree freqs = Err Undefined).
Proof.
  intros Hpos Hsum. split; [split|].
  - intros [t Ht]. by apply buildHuffmanTree_spec in Ht as [? _].
  - intros Hne. by apply buildHuffmanTree_returns.
  - intros ->. apply buildHuffmanTree_empty.
Qed.

Lemma buildHuffmanTree_returns_iff_witness :
  map_Forall (λ _ n, 0 ≤ n)%Z abc_frequencies ∧
  (total_count abc_frequencies ≤ INT_MAX)%Z ∧
  returns (@buildHuffmanTree sorted_list_platform abc_frequencies).
Proof.
  assert (map_Forall (λ _ n, 0 ≤ n)%Z abc_frequencies) as Hpos.
  { unfold abc_frequencies. repeat apply map_Forall_insert_2; done. }
  assert (total_count abc_frequencies ≤ INT_MAX)%Z as Hsum by by vm_compute.
  split_and!; [done|done|].
  by apply (proj1 (@buildHuffmanTree_returns_iff sorted_list_platform
                     abc_frequencies Hpos Hsum)).
Defined.

Lemma merge_loop_preserves `{Platform} (P : list HuffmanTreeNode → Prop) :
  (∀ ts1 ts2, ts1 ≡ₚ ts2 → P ts1 → P ts2) →
  (∀ l r rest f, P (l :: r :: rest) →
     int_add (get_freq l) (get_freq r) = Ok f →
     P (Node "000" f l r :: rest)) →
  ∀ fuel pq pq', merge_loop fuel pq = Ok pq' →
  P (pq_contents pq) → P (pq_contents pq').
Proof.
  intros Hperm Hstep fuel.
  induction fuel as [|fuel IH]; intros pq pq'; cbn [merge_loop];
    (case_decide as Hs; [|by intros [= <-]]); [done|].
  destruct (merge_round pq Hs) as (l & r & -> & -> & Hp).
  rewrite !bind_Ok. intros (f & Ef & Hm)%bind_Ok_inv HP.
  apply (IH _ _ Hm).
  apply (Hperm (Node "000" f l r :: pq_contents (pq_pop (pq_pop pq))));
    [symmetry; apply pq_contents_push|].
  apply Hstep; [|done]. by apply (Hperm (pq_contents pq)).
Qed.

Lemma leaf_entries_fst t : (leaf_entries t).*1 = leaves t.
Proof.
  induction t as [|v f l IHl r IHr]; [done|].
  cbn [leaf_entries leaves]. destruct (isLeaf _); [done|].
  by rewrite fmap_app, IHl, IHr.
Qed.

Lemma buildHuffmanTree_leaf_entries `{Platform} (freqs : gmap ascii Z) t :
  buildHuffmanTree freqs = Ok t → leaf_entries t ≡ₚ map_to_list freqs.
Proof.
  intros Ht. pose proof Ht as (_ & Hp & _)%buildHuffmanTree_spec.
  revert Ht. unfold buildHuffmanTree. cbn zeta.
  intros (pq' & Hm & Hpq)%bind_Ok_inv.
  pose proof Hm as (_ & Hs & _)%(merge_loop_inv (map_to_list freqs).*1
                                   (sum_Z (map_to_list freqs).*2)).
  2:{ eapply forest_inv_perm; [symmetry; apply initial_queue|].
      apply forest_inv_leaves. }
  apply (merge_loop_preserves
           (λ ts, Forall proper ts ∧ ts ≫= leaf_entries ≡ₚ map_to_list freqs))
    in Hm.
  - unfold top in Hpq. destruct (pq_top pq') as [x|] eqn:Et; [|done].
    injection Hpq as ->.
    destruct (pq_top_pop pq') as (x & Ex & Hperm).
    { intros E. by rewrite (pq_top_empty _ E) in Et. }
    rewrite Et in Ex. injection Ex as <-.
    rewrite pq_size_contents, Hperm in Hs. simpl in Hs.
    destruct (pq_contents (pq_pop pq')) as [|? ?]; [|simpl in Hs; lia].
    destruct Hm as [_ Hm]. rewrite Hperm in Hm. simpl in Hm.
    by rewrite app_nil_r in Hm.
  - intros ts1 ts2 Hperm [H1 H2]. split.
    + by apply (Forall_Permutation proper proper (λ _, reflexivity _) _ _ Hperm).
    + etrans; [|exact H2]. symmetry. by apply bind_Permutation.
  - intros l r rest f [[Hl [Hr Hrest]%Forall_cons]%Forall_cons H2] _. split.
    + constructor; [by constructor|done].
    + rewrite <-H2. cbn [mbind list_bind leaf_entries].
      rewrite (isLeaf_proper_child _ _ _ _ Hl). by rewrite <-app_assoc.
  - assert (Forall proper (leaves_of (map_to_list freqs)) ∧
            leaves_of (map_to_list freqs) ≫= leaf_entries ≡ₚ map_to_list freqs)
      as [H1 H2].
    { unfold leaves_of. split.
      - apply Forall_fmap, Forall_forall. intros [c n] _. constructor.
      - induction (map_to_list freqs) as [|[c n] es IH]; [done|].
        simpl. by constructor. }
    pose proof (initial_queue freqs) as Hq. symmetry in Hq. split.
    + by apply (Forall_Permutation proper proper (λ _, reflexivity _) _ _ Hq).
    + etrans; [|exact H2]. symmetry. by apply bind_Permutation.
Qed.

Lemma proper_nodes_count t :
  proper t → length (nodes t) = 2 * length (leaves t) - 1.
Proof.
  induction 1 as [v f|v f l r Hl IHl Hr IHr]; [done|].
  rewrite leaves_internal by by apply isLeaf_proper_child.
  cbn [nodes]. simpl length. rewrite !length_app, IHl, IHr.
  apply proper_leaves in Hl, Hr.
  destruct (leaves l), (leaves r); simpl in *; try done; lia.
Qed.

(** X3. The leaves of the tree that [buildHuffmanTree] returns are the
    entries of the table, each symbol once and with its own count; the
    root carries the sum of all counts, and a table of k symbols gives a
    tree of 2k - 1 nodes. *)
Theorem buildHuffmanTree_leaves `{Platform} (freqs : gmap ascii Z) t :
  buildHuffmanTree freqs = Ok t →
  NoDup (leaves t) ∧
  (∀ c n, (c, n) ∈ leaf_entries t ↔ freqs !! c = Some n) ∧
  get_freq t = total_count freqs ∧
  length (nodes t) = 2 * size freqs - 1.
Proof.
  intros Ht. pose proof (buildHuffmanTree_leaf_entries freqs t Ht) as He.
  apply built_tree in Ht as (Hp & _ & Hnd & _ & Hlen & Hf).
  split_and!; [done| |done|].
  - intros c n. by rewrite He, elem_of_map_to_list.
  - by rewrite proper_nodes_count, Hlen.
Qed.

Lemma buildHuffmanTree_leaves_witness :
  let t := Node "000" 6 (Node "000" 3 (new_leaf "c" 1) (new_leaf "b" 2))
             (new_leaf "a" 3) in
  @buildHuffmanTree sorted_list_platform abc_frequencies = Ok t ∧
  get_freq t = total_count abc_frequencies ∧
  length (nodes t) = 2 * size abc_frequencies - 1.
Proof.
  intros t.
  assert (@buildHuffmanTree sorted_list_platform abc_frequencies = Ok t) as Hb
    by by vm_compute.
  split; [exact Hb|].
  destruct (@buildHuffmanTree_leaves sorted_list_platform abc_frequencies t Hb)
    as (_ & _ & Hw & Hn).
  split; [exact Hw|exact Hn].
Defined.

Lemma countCharFrequencies_alphabet input (freqs : gmap ascii Z) :
  countCharFrequencies input = Ok freqs → size freqs = size (alphabet input).
Proof.
  intros Hf. rewrite <-size_dom. f_equal. apply set_eq. intros c.
  destruct (countCharFrequencies_loop_Ok input ∅ freqs Hf c) as [_ Hd].
  unfold alphabet. rewrite elem_of_dom, elem_of_list_to_set, Hd, lookup_empty.
  split; [|auto]. by intros [[]%is_Some_None|?].
Qed.

(** X4. From a non-empty text of at most [INT_MAX] characters,
    [countCharFrequencies] and [buildHuffmanTree] yield a tree whose root
    frequency is the length of the text and whose leaves are the distinct
    characters of the text, each once, with the number of its occurrences
    as frequency. *)
Theorem tree_of_text `{Platform} input :
  input ≠ [] → (Z.of_nat (length input) ≤ INT_MAX)%Z →
  ∃ freqs t,
    countCharFrequencies input = Ok freqs ∧
    buildHuffmanTree freqs = Ok t ∧
    get_freq t = Z.of_nat (length input) ∧
    NoDup (leaves t) ∧
    length (leaves t) = size (alphabet input) ∧
    ∀ c n, (c, n) ∈ leaf_entries t ↔
           c ∈ input ∧ n = Z.of_nat (occurrences c input).
Proof.
  intros Hne Hlen.
  destruct (countCharFrequencies_spec input Hlen)
    as (freqs & Hf & Hpos & Htot & Hdom).
  destruct (buildHuffmanTree_returns freqs) as [t Ht]; [|done|..].
  { intros ->. destruct input as [|c input]; [done|].
    destruct (proj2 (Hdom c)) as [x Hx]; [by left|done]. }
  { fold (total_count freqs). by rewrite Htot. }
  exists freqs, t.
  pose proof (buildHuffmanTree_leaf_entries freqs t Ht) as He.
  pose proof Ht as (_ & _ & Hnd & _ & Hl & Hfreq)%built_tree.
  split_and!; [done|done|by rewrite Hfreq|done|..].
  - by rewrite Hl, (countCharFrequencies_alphabet input freqs Hf).
  - intros c n. rewrite He, elem_of_map_to_list.
    destruct (countCharFrequencies_loop_Ok input ∅ freqs Hf c) as [Hc Hd].
    rewrite lookup_empty in Hc, Hd. simpl in Hc. split.
    + intros Hn. rewrite Hn in Hc. simpl in Hc. split; [|lia].
      destruct (proj1 Hd) as [[]%is_Some_None|?]; [by exists n|done].
    + intros [Hin ->]. destruct (proj2 Hd) as [n Hn]; [by right|].
      rewrite Hn in Hc |- *. simpl in Hc. f_equal. lia.
Qed.

Lemma tree_of_text_witness :
  text "abracadabra" ≠ [] ∧
  (Z.of_nat (length (text "abracadabra")) ≤ INT_MAX)%Z ∧
  ∃ freqs t,
    countCharFrequencies (text "abracadabra") = Ok freqs ∧
    @buildHuffmanTree sorted_list_platform freqs = Ok t ∧
    get_freq t = 11%Z.
Proof.
  assert (text "abracadabra" ≠ []) as Hne by done.
  assert (Z.of_nat (length (text "abracadabra")) ≤ INT_MAX)%Z as Hlen by done.
  split_and!; [done|done|].
  destruct (@tree_of_text sorted_list_platform (text "abracadabra") Hne Hlen)
    as (freqs & t & Hf & Ht & Hw & _).
  exists freqs, t. split; [exact Hf|]. split; [exact Ht|exact Hw].
Defined.

(** ** The length of a code and of a serialized tree *)

Lemma leaf_at_length t p c :
  proper t → leaf_at t p c → length p < length (leaves t).
Proof.
  intros Ht Hp. induction Hp as [c f|v f l r p c E Hp IH|v f l r p c E Hp IH].
  - simpl. lia.
  - inversion Ht as [|? ? ? ? Hl Hr]; subst; [done|].
    rewrite leaves_internal, length_app by done. simpl.
    apply proper_leaves in Hr. specialize (IH Hl).
    destruct (leaves r); [done|]. simpl. lia.
  - inversion Ht as [|? ? ? ? Hl Hr]; subst; [done|].
    rewrite leaves_internal, length_app by done. simpl.
    apply proper_leaves in Hl. specialize (IH Hr).
    destruct (leaves l); [done|]. simpl. lia.
Qed.

(** X5. Every code in the table made from a built tree is shorter than
    the number of symbols of the frequency table. *)
Theorem code_length_bound `{Platform} (freqs : gmap ascii Z) t c w :
  buildHuffmanTree freqs = Ok t →
  generateCharCodes t ∅ [] !! c = Some w →
  length w < size freqs.
Proof.
  intros (Hp & _ & Hnd & _ & Hlen & _)%built_tree Hw%generateCharCodes_spec;
    [|done..].
  rewrite <-Hlen. by apply leaf_at_length with c.
Qed.

Lemma code_length_bound_witness :
  let t := Node "000" 6 (Node "000" 3 (new_leaf "c" 1) (new_leaf "b" 2))
             (new_leaf "a" 3) in
  @buildHuffmanTree sorted_list_platform abc_frequencies = Ok t ∧
  generateCharCodes t ∅ [] !! "c" = Some (text "00") ∧
  length (text "00") < size abc_frequencies.
Proof.
  intros t.
  assert (@buildHuffmanTree sorted_list_platform abc_frequencies = Ok t) as Hb
    by by vm_compute.
  assert (generateCharCodes t ∅ [] !! "c" = Some (text "00")) as Hc
    by by vm_compute.
  split_and!; [done|done|].
  exact (@code_length_bound sorted_list_platform abc_frequencies t "c"
           (text "00") Hb Hc).
Defined.

Lemma proper_serialize_length t :
  proper t → length (serializeHuffmanTree t) = 3 * length (leaves t) - 1.
Proof.
  induction 1 as [v f|v f l r Hl IHl Hr IHr]; [done|].
  pose proof (isLeaf_proper_child v f l r Hl) as E.
  rewrite leaves_internal by done. cbn [serializeHuffmanTree]. rewrite E.
  simpl length. rewrite !length_app, IHl, IHr.
  apply proper_leaves in Hl, Hr.
  destruct (leaves l), (leaves r); simpl in *; try done; lia.
Qed.

(** X14. The serialization of a tree built from a table of k symbols has
    exactly 3k - 1 characters. *)
Theorem serialized_tree_length `{Platform} (freqs : gmap ascii Z) t :
  buildHuffmanTree freqs = Ok t →
  length (serializeHuffmanTree t) = 3 * size freqs - 1.
Proof.
  intros (Hp & _ & _ & _ & Hlen & _)%built_tree.
  by rewrite proper_serialize_length, Hlen.
Qed.

Lemma serialized_tree_length_witness :
  let t := Node "000" 6 (Node "000" 3 (new_leaf "c" 1) (new_leaf "b" 2))
             (new_leaf "a" 3) in
  @buildHuffmanTree sorted_list_platform abc_frequencies = Ok t ∧
  length (serializeHuffmanTree t) = 3 * size abc_frequencies - 1.
Proof.
  intros t.
  assert (@buildHuffmanTree sorted_list_platform abc_frequencies = Ok t) as Hb
    by by vm_compute.
  split; [done|].
  exact (@serialized_tree_length sorted_list_platform abc_frequencies t Hb).
Defined.

(** ** encodeText, piece by piece *)

Lemma encodeText_loop_acc input (codes : gmap ascii (list ascii)) acc :
  encodeText_loop input codes acc
  = x ← encodeText_loop input codes []; Ok (acc ++ x).
Proof.
  revert acc. induction input as [|c input IH]; intros acc.
  - cbn [encodeText_loop]. by rewrite bind_Ok, app_nil_r.
  - cbn [encodeText_loop]. destruct (codes !! c) as [w|]; [|done].
    rewrite (IH (acc ++ w)), (IH ([] ++ w)).
    destruct (encodeText_loop input codes []) as [x|e]; [|done].
    rewrite !bind_Ok. by rewrite <-app_assoc.
Qed.

Lemma encodeText_loop_app a b (codes : gmap ascii (list ascii)) :
  encodeText_loop (a ++ b) codes []
  = xa ← encodeText_loop a codes [];
    xb ← encodeText_loop b codes [];
    Ok (xa ++ xb).
Proof.
  induction a as [|c a IH].
  - cbn [app encodeText_loop]. rewrite bind_Ok.
    by destruct (encodeText_loop b codes []).
  - cbn [app encodeText_loop]. destruct (codes !! c) as [w|]; [|done].
    rewrite (encodeText_loop_acc (a ++ b)), (encodeText_loop_acc a), IH.
    destruct (encodeText_loop a codes []) as [xa|e]; [|done].
    rewrite !bind_Ok.
    destruct (encodeText_loop b codes []) as [xb|e]; [|done].
    rewrite !bind_Ok. by rewrite <-app_assoc.
Qed.

Lemma encodeText_loop_closed input (codes : gmap ascii (list ascii)) :
  (∀ c, c ∈ input → is_Some (codes !! c)) →
  encodeText_loop input codes []
  = Ok (input ≫= λ c, default [] (codes !! c)).
Proof.
  induction input as [|c input IH]; intros Hin; [done|].
  cbn [encodeText_loop]. destruct (Hin c) as [w Hw]; [by left|].
  rewrite Hw, encodeText_loop_acc, IH.
  - rewrite bind_Ok. cbn [mbind list_bind]. by rewrite Hw.
  - intros c' Hc'. apply Hin. by right.
Qed.

(** X6. [encodeText] works character by character: the encoding of two
    texts one after the other is the encoding of the first followed by
    the encoding of the second, and it fails when either fails.  With a
    table that has not exactly one entry and holds every character of the
    text, the result is the codes of the characters in the order of the
    text. *)
Theorem encodeText_app (codes : gmap ascii (list ascii)) a b :
  encodeText (a ++ b) codes
  = (xa ← encodeText a codes; xb ← encodeText b codes; Ok (xa ++ xb)) ∧
  (size codes ≠ 1 → (∀ c, c ∈ a → is_Some (codes !! c)) →
   encodeText a codes = Ok (a ≫= λ c, default [] (codes !! c))).
Proof.
  unfold encodeText. case_decide as Hs.
  - split; [|done]. rewrite !bind_Ok. by rewrite length_app, replicate_add.
  - split; [apply encodeText_loop_app|]. intros _. apply encodeText_loop_closed.
Qed.

Lemma encodeText_app_witness :
  let codes : gmap ascii (list ascii) :=
    <["a" := text "0"]> (<["b" := text "10"]> (<["c" := text "11"]> ∅)) in
  size codes ≠ 1 ∧ (∀ c, c ∈ text "abca" → is_Some (codes !! c)) ∧
  encodeText (text "abca") codes = Ok (text "010110").
Proof.
  intros codes.
  assert (size codes ≠ 1) as Hs by (vm_compute; lia).
  assert (∀ c, c ∈ text "abca" → is_Some (codes !! c)) as Hin.
  { intros c Hc. repeat (apply elem_of_cons in Hc as [->|Hc]; [by eexists|]).
    by apply elem_of_nil in Hc. }
  split_and!; [done|done|].
  exact (proj2 (encodeText_app codes (text "abca") []) Hs Hin).
Defined.

(** ** What encoder hands to the writer *)

Lemma encodeText_loop_bits input (codes : gmap ascii (list ascii)) acc bits :
  (∀ c w, codes !! c = Some w → Forall is_bit w ∧ w ≠ []) →
  encodeText_loop input codes acc = Ok bits →
  Forall is_bit acc →
  Forall is_bit bits ∧ length acc + length input ≤ length bits.
Proof.
  intros Hcodes. revert acc. induction input as [|c input IH]; intros acc.
  - intros [= <-] Hacc. split; [done|simpl; lia].
  - cbn [encodeText_loop]. destruct (codes !! c) as [w|] eqn:Ew; [|done].
    destruct (Hcodes c w Ew) as [Hw Hne]. intros Hloop Hacc.
    destruct (IH (acc ++ w) Hloop) as [Hbits Hlen]; [by apply Forall_app|].
    split; [done|]. rewrite length_app in Hlen. simpl.
    destruct w; [done|]. simpl in Hlen. lia.
Qed.

(** X7. Whatever [encoder] hands to the writer for an input text, the
    encoded text consists of ['0'] and ['1'] only and has at least one
    character for every character of the input, and the serialized tree
    has 3k - 1 characters, k being the number of distinct characters of
    the input. *)
Theorem encoder_output `{Platform} input serialized_tree encoded_text :
  encoder input = Ok (Some (serialized_tree, encoded_text)) →
  Forall is_bit encoded_text ∧
  length input ≤ length encoded_text ∧
  length serialized_tree = 3 * size (alphabet input) - 1.
Proof.
  unfold encoder. destruct input as [|c0 input0] eqn:Ein; [done|].
  rewrite <-Ein. clear Ein.
  intros (freqs & Hf & (root & Hroot & (bits & Hen & Hout)%bind_Ok_inv)
            %bind_Ok_inv)%bind_Ok_inv.
  cbn zeta in Hen, Hout. injection Hout as <- <-.
  pose proof Hroot as (Hp & _ & Hnd & _ & Hlen & _)%built_tree.
  split_and!.
  - unfold encodeText in Hen. case_decide as Hs.
    + injection Hen as <-. apply Forall_replicate. by left.
    + eapply encodeText_loop_bits in Hen as [? _]; [done| |done].
      intros c w Hw%generateCharCodes_spec; [|done..].
      split; [by apply leaf_at_bits in Hw|]. intros ->.
      apply leaf_at_nil in Hw as [Hw _].
      rewrite generateCharCodes_size, (leaves_isLeaf root Hw) in Hs; done.
  - unfold encodeText in Hen. case_decide as Hs.
    + injection Hen as <-. by rewrite length_replicate.
    + eapply encodeText_loop_bits in Hen as [_ ?]; [done| |done].
      intros c w Hw%generateCharCodes_spec; [|done..].
      split; [by apply leaf_at_bits in Hw|]. intros ->.
      apply leaf_at_nil in Hw as [Hw _].
      rewrite generateCharCodes_size, (leaves_isLeaf root Hw) in Hs; done.
  - rewrite proper_serialize_length, Hlen by done.
    by rewrite (countCharFrequencies_alphabet input freqs Hf).
Qed.

Lemma encoder_output_witness :
  @encoder sorted_list_platform (text "abracadabra")
  = Ok (Some (text "ILaILrIILdLcLb", text "01111001101011000111100")) ∧
  Forall is_bit (text "01111001101011000111100") ∧
  length (text "ILaILrIILdLcLb") = 3 * size (alphabet (text "abracadabra")) - 1.
Proof.
  assert (@encoder sorted_list_platform (text "abracadabra")
          = Ok (Some (text "ILaILrIILdLcLb", text "01111001101011000111100")))
    as He by by vm_compute.
  split; [exact He|].
  destruct (@encoder_output sorted_list_platform _ _ _ He) as (Hb & _ & Hl).
  split; [exact Hb|exact Hl].
Defined.

Lemma encoder_decoder_witness :
  text "abracadabra" ≠ [] ∧
  (Z.of_nat (length (text "abracadabra")) ≤ INT_MAX)%Z ∧
  ∃ serialized_tree encoded_text,
    @encoder sorted_list_platform (text "abracadabra")
    = Ok (Some (serialized_tree, encoded_text)) ∧
    decoder serialized_tree encoded_text = Ok (text "abracadabra").
Proof.
  assert (text "abracadabra" ≠ []) as Hne by done.
  assert (Z.of_nat (length (text "abracadabra")) ≤ INT_MAX)%Z as Hlen by done.
  split_and!; [done|done|].
  exact (@encoder_decoder sorted_list_platform (text "abracadabra") Hne Hlen).
Defined.

(** ** decodeText, piece by piece *)

Lemma decodeText_loop_step root bit rest out curr flag :
  decodeText_loop root (bit :: rest) out curr flag
  = let curr' := if decide (bit = "0") then get_left curr
                 else if decide (bit = "1") then get_right curr else curr in
    let flag' := if decide (bit = "0") then false
                 else if decide (bit = "1") then false else flag in
    if is_null curr' then Err EncodingMismatch
    else if isLeaf curr' then
      decodeText_loop root rest (out ++ [get_val curr']) root true
    else decodeText_loop root rest out curr' flag'.
Proof. cbn [decodeText_loop]. by repeat case_decide. Qed.

Lemma decodeText_loop_out root bits out curr flag :
  decodeText_loop root bits out curr flag
  = r ← decodeText_loop root bits [] curr flag; Ok (out ++ r).
Proof.
  revert out curr flag. induction bits as [|bit bits IH]; intros out curr flag.
  - cbn [decodeText_loop]. destruct flag; [|done]. by rewrite bind_Ok, app_nil_r.
  - rewrite !decodeText_loop_step. cbn zeta.
    destruct (is_null _); [done|]. destruct (isLeaf _); [|apply IH].
    rewrite (IH (out ++ _)), (IH ([] ++ _)).
    destruct (decodeText_loop root bits [] root true) as [r|e]; [|done].
    rewrite !bind_Ok. by rewrite <-app_assoc.
Qed.

Lemma decodeText_loop_app root a b out curr flag out' :
  (flag = true → curr = root) →
  decodeText_loop root a out curr flag = Ok out' →
  decodeText_loop root (a ++ b) out curr flag
  = decodeText_loop root b out' root true.
Proof.
  revert out curr flag. induction a as [|bit a IH]; intros out curr flag Hroot.
  - cbn [decodeText_loop app]. destruct flag; [|done].
    intros [= <-]. by rewrite Hroot.
  - cbn [app]. rewrite !decodeText_loop_step. cbn zeta.
    destruct (is_null _); [done|]. destruct (isLeaf _).
    + by apply IH.
    + apply IH. repeat case_decide; done.
Qed.

(** X9. [decodeText] works code by code: when two texts are each decoded
    in full against a tree, the first followed by the second is decoded
    to the symbols of the first followed by the symbols of the second. *)
Theorem decodeText_app root a b x y :
  decodeText a root = Ok x → decodeText b root = Ok y →
  decodeText (a ++ b) root = Ok (x ++ y).
Proof.
  unfold decodeText. destruct (is_null root); [done|]. intros Ha Hb.
  rewrite (decodeText_loop_app root a b [] root true x) by done.
  by rewrite decodeText_loop_out, Hb, bind_Ok.
Qed.

Lemma decodeText_app_witness :
  let root := Node "000" 0 (new_leaf "a" 0)
                (Node "000" 0 (new_leaf "b" 0) (new_leaf "c" 0)) in
  decodeText (text "010") root = Ok (text "ab") ∧
  decodeText (text "110") root = Ok (text "ca") ∧
  decodeText (text "010110") root = Ok (text "abca").
Proof.
  intros root.
  assert (decodeText (text "010") root = Ok (text "ab")) as Ha by done.
  assert (decodeText (text "110") root = Ok (text "ca")) as Hb by done.
  split_and!; [exact Ha|exact Hb|].
  exact (decodeText_app root (text "010") (text "110") _ _ Ha Hb).
Defined.

Lemma decodeText_loop_length root bits out curr flag res :
  decodeText_loop root bits out curr flag = Ok res →
  length res ≤ length out + length bits.
Proof.
  revert out curr flag. induction bits as [|bit bits IH]; intros out curr flag.
  - cbn [decodeText_loop]. destruct flag; [|done]. intros [= <-]. simpl. lia.
  - rewrite decodeText_loop_step. cbn zeta.
    destruct (is_null _); [done|]. destruct (isLeaf _).
    + intros Hr%IH. rewrite length_app in Hr. simpl in *. lia.
    + intros Hr%IH. simpl. lia.
Qed.

(** X11. [decodeText] never returns more symbols than the encoded text
    has characters. *)
Theorem decodeText_length bits root symbols :
  decodeText bits root = Ok symbols → length symbols ≤ length bits.
Proof.
  unfold decodeText. destruct (is_null root); [done|].
  by intros Hr%decodeText_loop_length.
Qed.

Lemma decodeText_length_witness :
  let root := Node "000" 0 (new_leaf "a" 0)
                (Node "000" 0 (new_leaf "b" 0) (new_leaf "c" 0)) in
  decodeText (text "010110") root = Ok (text "abca") ∧
  length (text "abca") ≤ length (text "010110").
Proof.
  intros root.
  assert (decodeText (text "010110") root = Ok (text "abca")) as Hd by done.
  split; [exact Hd|].
  exact (decodeText_length (text "010110") root (text "abca") Hd).
Defined.

(** ** Decoding, then encoding again *)

Lemma leaf_at_child curr bit p c :
  is_bit bit → isLeaf curr = false →
  leaf_at (Spec.child curr bit) p c → leaf_at curr (bit :: p) c.
Proof.
  intros Hbit E Hp. destruct curr as [|v f l r].
  { unfold Spec.child in Hp. case_decide; inversion Hp. }
  unfold Spec.child in Hp. destruct Hbit as [-> | ->].
  - rewrite decide_True in Hp by done. by constructor.
  - rewrite decide_False in Hp by done. by constructor.
Qed.

Lemma decodeText_loop_bit root bit rest out curr flag :
  is_bit bit →
  decodeText_loop root (bit :: rest) out curr flag
  = let curr' := Spec.child curr bit in
    if is_null curr' then Err EncodingMismatch
    else if isLeaf curr' then
      decodeText_loop root rest (out ++ [get_val curr']) root true
    else decodeText_loop root rest out curr' false.
Proof.
  intros Hbit. rewrite decodeText_loop_step. unfold Spec.child.
  destruct Hbit as [-> | ->]; done.
Qed.

Lemma decodeText_loop_codes root bits :
  isLeaf root = false → Forall is_bit bits →
  ∀ out curr flag pre res,
  isLeaf curr = false →
  (∀ p c, leaf_at curr p c → leaf_at root (pre ++ p) c) →
  (flag = true → pre = []) →
  decodeText_loop root bits out curr flag = Ok res →
  ∃ symbols codes,
    res = out ++ symbols ∧
    Forall2 (λ c w, leaf_at root w c) symbols codes ∧
    pre ++ bits = concat codes.
Proof.
  intros Eroot Hbits.
  induction Hbits as [|bit bits Hbit _ IH]; intros out curr flag pre res E Hinv Hflag.
  - cbn [decodeText_loop]. destruct flag; [|done]. intros [= <-].
    exists [], []. rewrite Hflag by done. by rewrite app_nil_r.
  - rewrite decodeText_loop_bit by done. cbn zeta.
    destruct (is_null (Spec.child curr bit)) eqn:En; [done|].
    destruct (isLeaf (Spec.child curr bit)) eqn:El.
    + intros Hloop.
      destruct (IH (out ++ [get_val (Spec.child curr bit)]) root true [] res Eroot)
        as (symbols & codes & -> & Hc & Hb); [done|done|exact Hloop|].
      apply isLeaf_true in El as (v & f & El).
      assert (leaf_at root (pre ++ [bit]) v) as Hv.
      { apply Hinv, leaf_at_child; [done..|]. rewrite El. constructor. }
      exists (v :: symbols), ((pre ++ [bit]) :: codes). split_and!.
      * rewrite El. simpl. by rewrite <-app_assoc.
      * by constructor.
      * simpl in *. by rewrite <-Hb, <-app_assoc.
    + intros Hloop.
      destruct (IH out (Spec.child curr bit) false (pre ++ [bit]) res El)
        as (symbols & codes & -> & Hc & Hb); [|done|exact Hloop|].
      { intros p c Hp. rewrite <-app_assoc. by apply Hinv, leaf_at_child. }
      exists symbols, codes. split_and!; [done..|].
      by rewrite <-Hb, <-app_assoc.
Qed.

Lemma encodeText_loop_Forall2 (table : gmap ascii (list ascii)) symbols codes acc :
  Forall2 (λ c w, table !! c = Some w) symbols codes →
  encodeText_loop symbols table acc = Ok (acc ++ concat codes).
Proof.
  intros Hc. revert acc.
  induction Hc as [|c w symbols codes Hw _ IH]; intros acc.
  - simpl. by rewrite app_nil_r.
  - cbn [encodeText_loop concat]. rewrite Hw, IH. by rewrite <-app_assoc.
Qed.

(** X10. Decoding is one to one: when [decodeText] decodes a string of
    ['0'] and ['1'] in full against a strict tree with distinct leaf
    symbols and an internal root, [encodeText] with the code table of that
    tree turns the decoded symbols back into the same string. *)
Theorem decodeText_encodeText root bits symbols :
  proper root → NoDup (leaves root) → isLeaf root = false →
  Forall is_bit bits →
  decodeText bits root = Ok symbols →
  encodeText symbols (generateCharCodes root ∅ []) = Ok bits.
Proof.
  intros Hp Hnd E Hbits. unfold decodeText.
  rewrite (proper_not_null root Hp). intros Hd.
  destruct (decodeText_loop_codes root bits E Hbits [] root true [] symbols)
    as (syms & codes & -> & Hc & Hb); [done..|].
  unfold encodeText. rewrite generateCharCodes_size by done.
  pose proof (proper_two_leaves root Hp E).
  rewrite decide_False by lia. simpl in Hb. rewrite Hb.
  apply (encodeText_loop_Forall2 _ syms codes []).
  eapply Forall2_impl; [exact Hc|]. intros c w Hw.
  by apply generateCharCodes_spec.
Qed.

Lemma decodeText_encodeText_witness :
  let root := Node "000" 0 (new_leaf "a" 0)
                (Node "000" 0 (new_leaf "b" 0) (new_leaf "c" 0)) in
  proper root ∧ NoDup (leaves root) ∧ isLeaf root = false ∧
  Forall is_bit (text "010110") ∧
  decodeText (text "010110") root = Ok (text "abca") ∧
  encodeText (text "abca") (generateCharCodes root ∅ []) = Ok (text "010110").
Proof.
  intros root.
  assert (proper root) as Hp by (repeat constructor).
  assert (NoDup (leaves root)) as Hnd.
  { apply (bool_decide_unpack (NoDup (leaves root))). by vm_compute. }
  assert (Forall is_bit (text "010110")) as Hbits
    by (repeat constructor; (by left) || (by right)).
  assert (decodeText (text "010110") root = Ok (text "abca")) as Hd by done.
  split_and!; [exact Hp|exact Hnd|reflexivity|exact Hbits|exact Hd|].
  exact (decodeText_encodeText root _ _ Hp Hnd eq_refl Hbits Hd).
Defined.

(** ** No access out of bounds, no call through a null pointer *)

(** X15. [deserializeHuffmanTreeHelper] reads the string at positions up
    to [size()] only, on every string and from every index: with every
    read checked it behaves as without the checks. *)
Theorem deserializeHuffmanTreeHelper_in_bounds fuel s index :
  deserializeHuffmanTreeHelper_checked fuel s index
  = deserializeHuffmanTreeHelper fuel s index.
Proof.
  revert index. induction fuel as [|fuel IH]; intros index; [done|].
  cbn [deserializeHuffmanTreeHelper_checked deserializeHuffmanTreeHelper].
  case_decide as Hi; [done|]. unfold checked_char_at.
  rewrite !decide_True by lia. rewrite !bind_Ok.
  case_decide; [done|].
  rewrite IH. destruct (deserializeHuffmanTreeHelper fuel s (S index))
    as [[l j]|e]; [|done].
  rewrite !bind_Ok. by rewrite IH.
Qed.




(** ** The outcomes of decoder *)

Lemma deserializeHuffmanTreeHelper_not_null fuel s i t j :
  deserializeHuffmanTreeHelper fuel s i = Ok (t, j) →
  i < length s → is_null t = false.
Proof.
  destruct fuel as [|fuel]; [done|].
  cbn [deserializeHuffmanTreeHelper]. intros Hh Hi.
  rewrite decide_False in Hh by lia. case_decide; [by injection Hh as <- _|].
  apply bind_Ok_inv in Hh as ([l j1] & _ & Hh).
  apply bind_Ok_inv in Hh as ([r j2] & _ & Hh). by injection Hh as <- _.
Qed.

Lemma decodeText_loop_outcome root bits out curr flag :
  returns (decodeText_loop root bits out curr flag) ∨
  decodeText_loop root bits out curr flag = Err EncodingMismatch.
Proof.
  revert out curr flag. induction bits as [|bit bits IH]; intros out curr flag.
  - cbn [decodeText_loop]. destruct flag; [left; by eexists|by right].
  - rewrite decodeText_loop_step. cbn zeta.
    destruct (is_null _); [by right|]. destruct (isLeaf _); apply IH.
Qed.

(** X17. On a non-empty tree string, [decoder] either returns a text or
    throws "Encoding did not match Huffman tree", whatever the two
    strings hold; on an empty tree string it calls [isLeaf] through the
    null pointer. *)
Theorem decoder_outcomes serialized_tree encoded_text :
  (serialized_tree = [] →
   decoder serialized_tree encoded_text = Err Undefined) ∧
  (serialized_tree ≠ [] →
   returns (decoder serialized_tree encoded_text) ∨
   decoder serialized_tree encoded_text = Err EncodingMismatch).
Proof.
  split; [by intros ->|]. intros Hne. unfold decoder, deserializeHuffmanTree.
  destruct serialized_tree as [|c s]; [done|].
  destruct (deserializeHuffmanTreeHelper_returns (S (length (c :: s))) (c :: s) 0)
    as (root & j & Hh & _); [lia|].
  rewrite Hh, !bind_Ok.
  apply deserializeHuffmanTreeHelper_not_null in Hh; [|simpl; lia].
  unfold decoder_text, decodeText. rewrite Hh.
  destruct (isLeaf root); [|apply decodeText_loop_outcome].
  destruct (allZeros_loop _ _); [left; by eexists|apply decodeText_loop_outcome].
Qed.

Lemma decoder_outcomes_witness :
  text "ILa" ≠ [] ∧
  decoder (text "ILa") (text "01") = Err EncodingMismatch ∧
  decoder [] (text "01") = Err Undefined.
Proof.
  pose proof (decoder_outcomes (text "ILa") (text "01")) as [_ H1].
  pose proof (decoder_outcomes [] (text "01")) as [H2 _].
  assert (text "ILa" ≠ []) as Hne by done.
  split_and!; [exact Hne| |exact (H2 eq_refl)].
  by destruct (H1 Hne) as [[a Ha]|Ha].
Defined.

(** ** The serialization is self-delimiting *)

Lemma deserialize_serialize_app t rest :
  proper t →
  deserializeHuffmanTree (serializeHuffmanTree t ++ rest) = Ok (blank t).
Proof.
  intros Ht. unfold deserializeHuffmanTree.
  pose proof (height_le_serialize t Ht) as Hh.
  destruct (serializeHuffmanTree t ++ rest) as [|c s] eqn:E.
  { apply app_eq_nil in E as [E _]. rewrite E in Hh.
    destruct Ht; simpl in Hh; lia. }
  rewrite <-E.
  erewrite deserializeHuffmanTreeHelper_serialize with (rest := rest);
    [done|done| |done].
  rewrite length_app. lia.
Qed.

(** X12. [deserializeHuffmanTree] stops where the tree ends: on the
    serialization of a strict tree followed by any further characters it
    returns that tree (with frequencies 0), and ignores what follows. *)
Theorem deserializeHuffmanTree_ignores_rest t rest :
  proper t →
  deserializeHuffmanTree (serializeHuffmanTree t ++ rest) = Ok (blank t) ∧
  same_structure t (blank t) = true.
Proof.
  intros Ht. split; [by apply deserialize_serialize_app|].
  apply same_structure_blank.
Qed.

Lemma deserializeHuffmanTree_ignores_rest_witness :
  let t := Node "000" 3 (new_leaf "a" 2) (new_leaf "b" 1) in
  proper t ∧
  deserializeHuffmanTree (text "ILaLb0110") = Ok (blank t).
Proof.
  intros t. assert (proper t) as Hp by (repeat constructor).
  split; [exact Hp|].
  exact (proj1 (deserializeHuffmanTree_ignores_rest t (text "0110") Hp)).
Defined.

Lemma blank_is_null t : blank t = nullptr → t = nullptr.
Proof. destruct t as [|v f l r]; [done|]. cbn [blank]. by destruct (isLeaf _). Qed.

Lemma blank_eq_same_structure t1 t2 :
  blank t1 = blank t2 → same_structure t1 t2 = true.
Proof.
  revert t2. induction t1 as [|v1 f1 l1 IHl r1 IHr]; intros t2 Hb.
  - symmetry in Hb. by apply blank_is_null in Hb as ->.
  - destruct t2 as [|v2 f2 l2 r2].
    { by apply blank_is_null in Hb. }
    pose proof (f_equal isLeaf Hb) as Hl. rewrite !isLeaf_blank in Hl.
    cbn [same_structure blank] in *. rewrite <-Hl in *.
    destruct (isLeaf (Node v1 f1 l1 r1)).
    + injection Hb as ->. simpl. by rewrite bool_decide_eq_true.
    + injection Hb as Hbl Hbr. by rewrite (IHl _ Hbl), (IHr _ Hbr).
Qed.

Lemma serialize_blank t :
  serializeHuffmanTree (blank t) = serializeHuffmanTree t.
Proof.
  induction t as [|v f l IHl r IHr]; [done|].
  pose proof (isLeaf_blank (Node v f l r)) as Hb.
  cbn [blank] in *. destruct (isLeaf (Node v f l r)) eqn:E.
  - by apply isLeaf_true in E as (? & ? & [= -> -> -> ->]).
  - cbn [serializeHuffmanTree]. by rewrite Hb, E, IHl, IHr.
Qed.

(** X13. The grammar is unambiguous: when the serializations of two
    strict trees, each followed by further characters, are the same
    string, the trees have the same shape and leaf symbols and the
    further characters are the same. *)
Theorem serializeHuffmanTree_unambiguous t1 t2 rest1 rest2 :
  proper t1 → proper t2 →
  serializeHuffmanTree t1 ++ rest1 = serializeHuffmanTree t2 ++ rest2 →
  same_structure t1 t2 = true ∧ rest1 = rest2.
Proof.
  intros H1 H2 Heq.
  pose proof (deserialize_serialize_app t1 rest1 H1) as D1.
  pose proof (deserialize_serialize_app t2 rest2 H2) as D2.
  rewrite Heq, D2 in D1. injection D1 as Hb.
  split; [by apply blank_eq_same_structure|].
  rewrite <-(serialize_blank t1), <-Hb, serialize_blank in Heq.
  by apply app_inv_head in Heq.
Qed.

Lemma serializeHuffmanTree_unambiguous_witness :
  let t1 := Node "000" 3 (new_leaf "a" 2) (new_leaf "b" 1) in
  let t2 := Node "x" 0 (new_leaf "a" 0) (new_leaf "b" 0) in
  proper t1 ∧ proper t2 ∧
  serializeHuffmanTree t1 ++ text "01" = serializeHuffmanTree t2 ++ text "01" ∧
  same_structure t1 t2 = true.
Proof.
  intros t1 t2.
  assert (proper t1) as H1 by (repeat constructor).
  assert (proper t2) as H2 by (repeat constructor).
  assert (serializeHuffmanTree t1 ++ text "01"
          = serializeHuffmanTree t2 ++ text "01") as Heq by reflexivity.
  split_and!; [exact H1|exact H2|exact Heq|].
  exact (proj1 (serializeHuffmanTree_unambiguous t1 t2 _ _ H1 H2 Heq)).
Defined.

(** ** The round trip of phaseOne *)

Lemma same_structure_sym t1 t2 :
  same_structure t1 t2 = true → same_structure t2 t1 = true.
Proof.
  revert t2. induction t1 as [|v1 f1 l1 IHl r1 IHr]; intros [|v2 f2 l2 r2];
    try done.
  cbn [same_structure].
  destruct (isLeaf (Node v1 f1 l1 r1)), (isLeaf (Node v2 f2 l2 r2)); simpl;
    try done.
  - intros ->%bool_decide_eq_true. by rewrite bool_decide_eq_true.
  - intros [Hl Hr]%andb_true_iff. by rewrite (IHl _ Hl), (IHr _ Hr).
Qed.

Lemma same_structure_trans t1 t2 t3 :
  same_structure t1 t2 = true → same_structure t2 t3 = true →
  same_structure t1 t3 = true.
Proof.
  revert t2 t3. induction t1 as [|v1 f1 l1 IHl r1 IHr];
    intros [|v2 f2 l2 r2] [|v3 f3 l3 r3]; try done.
  cbn [same_structure].
  destruct (isLeaf (Node v1 f1 l1 r1)), (isLeaf (Node v2 f2 l2 r2)),
    (isLeaf (Node v3 f3 l3 r3)); simpl; try done.
  - by intros ->%bool_decide_eq_true.
  - intros [Hl Hr]%andb_true_iff [Hl' Hr']%andb_true_iff.
    by rewrite (IHl _ _ Hl Hl'), (IHr _ _ Hr Hr').
Qed.

(** X21. The functions of phaseOne make a round trip as well:
    [deserialize_tree] returns, on the string that [serialize_tree]
    makes of a strict tree, a tree of the same shape with the same leaf
    symbols. *)
Theorem deserialize_tree_serialize_tree t :
  proper t →
  ∃ t', deserialize_tree (serialize_tree t) = Ok t' ∧
        same_structure t t' = true.
Proof.
  intros Ht. rewrite serialize_tree_eq. unfold deserialize_tree.
  set (s := serializeHuffmanTree t).
  pose proof (deserializers_agree (S (length s)) s 0) as Ha.
  pose proof (height_le_serialize t Ht) as Hh.
  rewrite (deserializeHuffmanTreeHelper_serialize t Ht (S (length s)) s 0 [])
    in Ha; [|unfold s; lia|by rewrite app_nil_r].
  destruct (deserialize_tree_pos (S (length s)) s 0) as [[t1 j1]|e]; [|done].
  destruct Ha as [Hs _]. exists t1. split; [done|].
  apply same_structure_trans with (blank t); [apply same_structure_blank|].
  by apply same_structure_sym.
Qed.

Lemma deserialize_tree_serialize_tree_witness :
  let t := Node "000" 1 (new_leaf "a" 1) (new_leaf "b" 1) in
  proper t ∧ serialize_tree t = text "ILaLb" ∧
  ∃ t', deserialize_tree (text "ILaLb") = Ok t' ∧ same_structure t t' = true.
Proof.
  intros t. assert (proper t) as Hp by (repeat constructor).
  split_and!; [exact Hp|reflexivity|].
  exact (deserialize_tree_serialize_tree t Hp).
Defined.

(** ** generateCharCodes on any tree and any table *)

Lemma leaves_leaf_at_last t m code c :
  c ∈ leaves t →
  ∃ p, generateCharCodes t m code !! c = Some (code ++ p) ∧ leaf_at t p c.
Proof.
  revert m code. induction t as [|v f l IHl r IHr]; intros m code.
  { by intros ?%elem_of_nil. }
  cbn [generateCharCodes leaves]. destruct (isLeaf (Node v f l r)) eqn:E.
  - intros ->%list_elem_of_singleton.
    apply isLeaf_true in E as (? & ? & [= -> -> -> ->]).
    exists []. rewrite lookup_insert_eq, app_nil_r. split; [done|constructor].
  - intros Hc. destruct (decide (c ∈ leaves r)) as [Hr|Hr].
    + destruct (IHr (generateCharCodes l m (code ++ ["0"])) (code ++ ["1"]) Hr)
        as (p & Hp & Hat).
      exists ("1" :: p). rewrite Hp, <-app_assoc. split; [done|by constructor].
    + apply elem_of_app in Hc as [Hl|?]; [|done].
      destruct (IHl m (code ++ ["0"]) Hl) as (p & Hp & Hat).
      exists ("0" :: p). rewrite generateCharCodes_other, Hp, <-app_assoc by done.
      split; [done|by constructor].
Qed.

(** X19. On every tree, also one with missing children or repeated
    symbols, and every table and prefix, [generateCharCodes] changes the
    entries of the symbols at the leaves and no other: the keys
    afterwards are the old keys and the leaf symbols, an entry of another
    symbol is kept, and a leaf symbol is mapped to the prefix followed by
    the path to a leaf that holds it. *)
Theorem generateCharCodes_frame t (m : gmap ascii (list ascii)) code :
  dom (generateCharCodes t m code) = dom m ∪ list_to_set (leaves t) ∧
  (∀ c, c ∉ leaves t → generateCharCodes t m code !! c = m !! c) ∧
  (∀ c, c ∈ leaves t →
     ∃ p, generateCharCodes t m code !! c = Some (code ++ p) ∧ leaf_at t p c).
Proof.
  split_and!.
  - apply generateCharCodes_dom.
  - intros c. apply generateCharCodes_other.
  - intros c. apply leaves_leaf_at_last.
Qed.

Lemma generateCharCodes_frame_witness :
  let t := Node "000" 0 (new_leaf "a" 0) nullptr in
  let m : gmap ascii (list ascii) := {["z" := text "111"]} in
  ("z" ∉ leaves t) ∧ ("a" ∈ leaves t) ∧
  generateCharCodes t m (text "1") !! "z" = Some (text "111") ∧
  generateCharCodes t m (text "1") !! "a" = Some (text "10").
Proof.
  intros t m.
  assert ("z" ∉ leaves t) as Hz.
  { intros Hz%list_elem_of_singleton. done. }
  assert ("a" ∈ leaves t) as Ha by by left.
  pose proof (generateCharCodes_frame t m (text "1")) as (_ & Hother & Hleaf).
  split_and!; [exact Hz|exact Ha|exact (Hother "z" Hz)|].
  destruct (Hleaf "a" Ha) as (p & Hp & _). reflexivity.
Defined.

(** ** deleteHuffmanTree *)

Lemma deleteHuffmanTree_perm t : deleteHuffmanTree t ≡ₚ nodes t.
Proof.
  induction t as [|v f l IHl r IHr]; [done|].
  cbn [deleteHuffmanTree nodes]. rewrite IHl, IHr.
  by rewrite app_assoc, <-Permutation_cons_append.
Qed.

(** X18. [deleteHuffmanTree] hands every node of the tree to [delete]
    once, never the null pointer, and the root last, after all the nodes
    below it. *)
Theorem deleteHuffmanTree_every_node t :
  deleteHuffmanTree t ≡ₚ nodes t ∧
  (∀ n, n ∈ deleteHuffmanTree t → is_null n = false) ∧
  (is_null t = false →
   ∃ below, deleteHuffmanTree t = below ++ [t] ∧
            below ≡ₚ nodes (get_left t) ++ nodes (get_right t)).
Proof.
  split_and!.
  - apply deleteHuffmanTree_perm.
  - intros n. rewrite deleteHuffmanTree_perm. clear.
    induction t as [|v f l IHl r IHr]; [by intros ?%elem_of_nil|].
    cbn [nodes]. intros [->|[?|?]%elem_of_app]%elem_of_cons; auto.
  - destruct t as [|v f l r]; [done|]. intros _.
    exists (deleteHuffmanTree l ++ deleteHuffmanTree r). split.
    + cbn [deleteHuffmanTree]. by rewrite app_assoc.
    + by rewrite !deleteHuffmanTree_perm.
Qed.

Lemma deleteHuffmanTree_every_node_witness :
  let t := Node "000" 3 (new_leaf "a" 2) (new_leaf "b" 1) in
  is_null t = false ∧
  deleteHuffmanTree t = [new_leaf "a" 2; new_leaf "b" 1; t].
Proof.
  intros t.
  destruct (deleteHuffmanTree_every_node t) as (_ & _ & Hlast).
  destruct (Hlast eq_refl) as (below & Hd & _).
  split; reflexivity.
Defined.

(** ** count_freqs *)



